(** * A two-link planar manipulator: inverse kinematics along a straight line

    Shallow embedding of [main.cpp].  The program computes with C++ [double]
    values, reads six numbers from [cin], validates them, and prints a table
    on [cout].  The embedding keeps that shape:

    - the arithmetic of [double] is an interface ([Arith], [Libm]) with two
      instances: IEEE binary64 (Rocq's primitive floats, with the
      transcendental functions of [<math.h>] taken as a parameter), which is
      what the compiled program runs on, and exact real arithmetic, the
      idealisation in which the geometry of the manipulator is stated;
    - every operation on [double] is one correctly rounded binary64
      operation, as on a target that evaluates [double] in double precision
      and does not fuse multiplications with additions;
    - [cin] and [cout] are an explicit world threaded through a small
      state-and-exit monad ([prog]);
    - [exit(0)] is an outcome of its own ([Exited]), so that what follows a
      failed feasibility check is visibly never run. *)

From Stdlib Require Import ZArith List String Bool Lia.
From Stdlib Require Import Floats.
From Stdlib Require Import Reals Lra Psatz.
Import ListNotations.

Set Warnings "-inexact-float".

(** ** Arithmetic of [double] *)

(** The operators and functions the program applies to [double] values.
    [lit] is a literal with an integer value ([0], [1.0], [2], [50.0]);
    [fabs] is [abs] at a [double] argument, the floating-point overload that
    [<math.h>] brings into scope in C++; [flt] is [<] (and [>] with the
    arguments swapped) and [feq] is [==].  [fle] is not used by the program:
    the specification states the reachable annulus with it. *)
Class Arith (T : Type) : Type := {
  lit : Z -> T;
  fadd : T -> T -> T;
  fsub : T -> T -> T;
  fmul : T -> T -> T;
  fdiv : T -> T -> T;
  fopp : T -> T;
  fsqrt : T -> T;
  fabs : T -> T;
  flt : T -> T -> bool;
  fle : T -> T -> bool;
  feq : T -> T -> bool
}.

(** The transcendental functions of [<math.h>]. *)
Class Libm (T : Type) : Type := {
  facos : T -> T;
  fatan2 : T -> T -> T;
  fsin : T -> T;
  fcos : T -> T
}.

Declare Scope dbl_scope.
Delimit Scope dbl_scope with dbl.
Notation "a + b" := (fadd a b) : dbl_scope.
Notation "a - b" := (fsub a b) : dbl_scope.
Notation "a * b" := (fmul a b) : dbl_scope.
Notation "a / b" := (fdiv a b) : dbl_scope.
Notation "- a" := (fopp a) : dbl_scope.
Notation "a <? b" := (flt a b) : dbl_scope.
Notation "a >? b" := (flt b a) (only parsing) : dbl_scope.
Notation "a <=? b" := (fle a b) : dbl_scope.
Notation "a == b" := (feq a b) (at level 70, no associativity) : dbl_scope.

(** [struct coord {double x; double y;}] *)
Record coord (T : Type) : Type := Coord { x : T; y : T }.
Arguments Coord {T} _ _.
Arguments x {T} _.
Arguments y {T} _.

(** ** The world: [cin], [cout] and [exit] *)

(** What goes to [cout]: a string, or a number rendered by [prd] (fixed
    notation, [decDigits] decimals, right-aligned in [width] columns). *)
Inductive text (T : Type) : Type :=
| Lit (s : string)
| Fixed (v : T) (decDigits width : Z).
Arguments Lit {T} _.
Arguments Fixed {T} _ _ _.

Record world (T : Type) : Type := World { cin : list T; cout : list (text T) }.
Arguments World {T} _ _.
Arguments cin {T} _.
Arguments cout {T} _.

(** The outcome of running a piece of the program: it returns a value, the
    process exits with a status, an extraction at the end of the input leaves
    its variable unset ([Undefined]), or the loop bound of the model is used
    up ([OutOfFuel]). *)
Inductive result (T A : Type) : Type :=
| Returned (a : A) (w : world T)
| Exited (status : Z) (w : world T)
| Undefined
| OutOfFuel.
Arguments Returned {T A} _ _.
Arguments Exited {T A} _ _.
Arguments Undefined {T A}.
Arguments OutOfFuel {T A}.

Definition prog (T A : Type) : Type := world T -> result T A.

Definition ret {T A} (a : A) : prog T A := fun w => Returned a w.

Definition bind {T A B} (p : prog T A) (k : A -> prog T B) : prog T B :=
  fun w =>
    match p w with
    | Returned a w' => k a w'
    | Exited s w' => Exited s w'
    | Undefined => Undefined
    | OutOfFuel => OutOfFuel
    end.

Declare Scope prog_scope.
Delimit Scope prog_scope with prog.
Notation "v <- p ;; k" := (bind p (fun v => k))
  (at level 61, p at next level, right associativity) : prog_scope.
Notation "p ;; k" := (bind p (fun _ => k))
  (at level 61, right associativity) : prog_scope.

(** [cout << t] *)
Definition put {T} (t : text T) : prog T unit :=
  fun w => Returned tt (World (cin w) (cout w ++ [t])).

(** [cin >> v] for a [double] [v] *)
Definition get {T} : prog T T :=
  fun w =>
    match cin w with
    | v :: rest => Returned v (World rest (cout w))
    | [] => Undefined
    end.

(** [void exit(int status)] *)
Definition exit {T} (status : Z) : prog T unit := fun w => Exited status w.

Definition out_of_fuel {T A} : prog T A := fun _ => OutOfFuel.

(** [endl] and ["\n"] *)
Definition endl : string := String (Ascii.ascii_of_nat 10) EmptyString.

(** ** The program *)

Section Program.
Context {T : Type} {AT : Arith T} {MT : Libm T}.
Local Open Scope dbl_scope.

(** [double norm (double a, double b)] *)
Definition norm (a b : T) : T := fsqrt (a * a + b * b).

(** [coord from_pos_to_angle(coord pos, coord L)] *)
Definition from_pos_to_angle (pos L : coord T) : coord T :=
  let theta2 :=
    facos ((x pos * x pos + y pos * y pos - x L * x L - y L * y L)
           / (lit 2 * x L * y L)) in
  let theta1 :=
    fatan2 (y pos) (x pos)
    - fatan2 (y L * fsin theta2) (x L + y L * fcos theta2) in
  let angles := Coord theta1 theta2 in
  angles.

(** [cout << t1 << t2 << ...] *)
Fixpoint puts (ts : list (text T)) : prog T unit :=
  match ts with
  | [] => ret tt
  | t :: ts' => (put t ;; puts ts')%prog
  end.

(** [coord assign_pos_init()] *)
Definition assign_pos_init : prog T (coord T) :=
  (puts [Lit "Type the x coordinate of the initial position of the end-effector:"; Lit endl] ;;
   pos_init_x <- get ;;
   puts [Lit "Type the y coordinate of the initial position of the end-effector:"; Lit endl] ;;
   pos_init_y <- get ;;
   let init := Coord pos_init_x pos_init_y in
   ret init)%prog.

(** [coord assign_pos_des()] *)
Definition assign_pos_des : prog T (coord T) :=
  (puts [Lit "Type the x coordinate of the desired position of the end-effector:"; Lit endl] ;;
   pos_des_x <- get ;;
   puts [Lit "Type the y coordinate of the desired position of the end-effector:"; Lit endl] ;;
   pos_des_y <- get ;;
   let des := Coord pos_des_x pos_des_y in
   ret des)%prog.

(** [coord assign_link_length()] *)
Definition assign_link_length : prog T (coord T) :=
  (puts [Lit "Type the length of the first link:"; Lit endl] ;;
   L_x <- get ;;
   puts [Lit "Type the length of the second link:"; Lit endl] ;;
   L_y <- get ;;
   let length := Coord L_x L_y in
   ret length)%prog.

(** [bool is_given_inputs_feasible(coord pos_init, coord pos_des, coord L)].
    The [return false] after each [exit(0)] is kept; it is never reached. *)
Definition is_given_inputs_feasible (pos_init pos_des L : coord T) : prog T bool :=
  let x0 := x pos_init in
  let x1 := x pos_des in
  let y0 := y pos_init in
  let y1 := y pos_des in
  let a := y0 - y1 in
  let b := - x0 + x1 in
  let c := y0 * (x0 - x1) - (y0 - y1) * x0 in
  let d := fabs c / fsqrt (a * a + b * b) in
  if (norm x0 y0 >? x L + y L) || (norm x0 y0 <? fabs (x L - y L))
     || (norm x1 y1 >? x L + y L) || (norm x1 y1 <? fabs (x L - y L))
  then
    (puts [Lit "Position(s) is(are) not in the operable range. Terminating ..."; Lit endl] ;;
     exit 0 ;;
     ret false)%prog
  else if d <? fabs (x L - y L) then
    (puts [Lit "Straight-line trajectory is not possible. Terminating ..."; Lit endl] ;;
     exit 0 ;;
     ret false)%prog
  else if (x L == y L) && (d == lit 0) then
    (puts [Lit "Straight-line trajectory includes a singular point. Terminating ..."; Lit endl] ;;
     exit 0 ;;
     ret false)%prog
  else ret true.

(** [string prd(const double x, const int decDigits, const int width)]: the
    rendering itself is left to the reader of [cout]. *)
Definition prd (v : T) (decDigits width : Z) : text T := Fixed v decDigits width.

Fixpoint replicate (n : nat) (s : string) : string :=
  match n with
  | O => EmptyString
  | S n' => (s ++ replicate n' s)%string
  end.

(** [string center(const string s, const int w)] *)
Definition center (s : string) (w : Z) : string :=
  let padding := (w - Z.of_nat (String.length s))%Z in
  let spaces := replicate (Z.to_nat (Z.quot padding 2)) " " in
  let ss := (spaces ++ s ++ spaces)%string in
  if (0 <? padding)%Z && negb (Z.rem padding 2 =? 0)%Z
  then (ss ++ " ")%string
  else ss.

(** [for(double i=0; i < N; i++) body], unrolled at most [fuel] times. *)
Fixpoint for_i (fuel : nat) (i N : T) (body : T -> prog T unit) : prog T unit :=
  match fuel with
  | O => out_of_fuel
  | S fuel' =>
      if i <? N
      then (body i ;; for_i fuel' (i + lit 1) N body)%prog
      else ret tt
  end.

(** One pass through the body of the loop of [main]. *)
Definition main_loop_body (pos_init pos_des L : coord T) (N i : T) : prog T unit :=
  let pos_des_local :=
    Coord (x pos_init + (x pos_des - x pos_init) * (i + lit 1) / N)
          (y pos_init + (y pos_des - y pos_init) * (i + lit 1) / N) in
  let angle_des := from_pos_to_angle pos_des_local L in
  if i == N - lit 1 then
    puts [prd (x angle_des) 3 13; Lit " | ";
          prd (y angle_des) 3 13; Lit " | ";
          prd (x pos_des_local) 3 15; Lit " | ";
          prd (y pos_des_local) 3 15; Lit " (final)"; Lit endl]
  else
    puts [prd (x angle_des) 3 13; Lit " | ";
          prd (y angle_des) 3 13; Lit " | ";
          prd (x pos_des_local) 3 15; Lit " | ";
          prd (y pos_des_local) 3 15; Lit endl].

(** [int main(void)]; falling off the end of [main] returns 0. *)
Definition main (fuel : nat) : prog T Z :=
  (pos_init <- assign_pos_init ;;
   pos_des <- assign_pos_des ;;
   L <- assign_link_length ;;
   feasibility <- is_given_inputs_feasible pos_init pos_des L ;;
   let angle_init := from_pos_to_angle pos_init L in
   let angle_des := from_pos_to_angle pos_des L in
   puts [Lit (center "Angle 1 [rad]" 13); Lit " | ";
         Lit (center "Angle 2 [rad]" 13); Lit " | ";
         Lit (center "x, end-effector" 15); Lit " | ";
         Lit (center "y, end-effector" 15); Lit endl] ;;
   puts [Lit (replicate (15*2 + 15*2 + 2*4) "-"); Lit endl] ;;
   puts [prd (x angle_init) 3 13; Lit " | ";
         prd (y angle_init) 3 13; Lit " | ";
         prd (x pos_init) 3 15; Lit " | ";
         prd (y pos_init) 3 15; Lit " (initial)"; Lit endl] ;;
   let N := lit 50 in
   for_i fuel (lit 0) N (main_loop_body pos_init pos_des L N) ;;
   ret 0%Z)%prog.

End Program.

(** ** The two arithmetics *)

(** IEEE 754 binary64, round to nearest even: the [double] of the program. *)
#[export] Instance binary64 : Arith float := {|
  lit z := PrimFloat.of_uint63 (Uint63.of_Z z);
  fadd := PrimFloat.add;
  fsub := PrimFloat.sub;
  fmul := PrimFloat.mul;
  fdiv := PrimFloat.div;
  fopp := PrimFloat.opp;
  fsqrt := PrimFloat.sqrt;
  fabs := PrimFloat.abs;
  flt := PrimFloat.ltb;
  fle := PrimFloat.leb;
  feq := PrimFloat.eqb
|}.

Definition Rltb (a b : R) : bool := if Rlt_dec a b then true else false.
Definition Rleb (a b : R) : bool := if Rle_dec a b then true else false.
Definition Reqb (a b : R) : bool := if Req_dec_T a b then true else false.

(** Exact real arithmetic.  Division by zero has no meaning here (the
    library's [/] is total and gives 0); nothing below is stated about the
    real instance at a zero divisor. *)
#[export] Instance exact : Arith R := {|
  lit := IZR;
  fadd := Rplus;
  fsub := Rminus;
  fmul := Rmult;
  fdiv := Rdiv;
  fopp := Ropp;
  fsqrt := R_sqrt.sqrt;
  fabs := Rabs;
  flt := Rltb;
  fle := Rleb;
  feq := Reqb
|}.

(** [atan2] of [<math.h>] on the reals: the angle of the point [(u, v)],
    in (-PI, PI], and 0 at the origin. *)
Definition atan2 (v u : R) : R :=
  if Rlt_dec 0 u then atan (v / u)
  else if Rlt_dec u 0 then
    if Rle_dec 0 v then atan (v / u) + PI else atan (v / u) - PI
  else if Rlt_dec 0 v then PI / 2
  else if Rlt_dec v 0 then - (PI / 2)
  else 0.

#[export] Instance exact_libm : Libm R := {|
  facos := acos;
  fatan2 := atan2;
  fsin := sin;
  fcos := cos
|}.

(** ** The [<math.h>] of a binary64 platform

    The program calls [acos], [atan2], [sin] and [cos]; their code is the
    platform's.  They are a parameter, of which only this much is used, all
    of it prescribed by C's Annex F (IEC 60559 arithmetic): a domain error
    of [acos] (an argument of magnitude above 1) returns a NaN, and [sin]
    and [cos] of a NaN are a NaN. *)
Record libm64 : Type := {
  acos64 : float -> float;
  atan2_64 : float -> float -> float;
  sin64 : float -> float;
  cos64 : float -> float;
  acos64_domain :
    forall v : float, PrimFloat.ltb 1 (PrimFloat.abs v) = true ->
                      PrimFloat.is_nan (acos64 v) = true;
  sin64_nan :
    forall v : float, PrimFloat.is_nan v = true -> PrimFloat.is_nan (sin64 v) = true;
  cos64_nan :
    forall v : float, PrimFloat.is_nan v = true -> PrimFloat.is_nan (cos64 v) = true
}.

Definition binary64_libm (m : libm64) : Libm float := {|
  facos := acos64 m;
  fatan2 := atan2_64 m;
  fsin := sin64 m;
  fcos := cos64 m
|}.

(** * The vocabulary of the specification *)

(** ** What the feasibility check reports *)

(** The three ways the check of the specification fails. *)
Inductive FeasibilityError : Type := OutOfRange | PathInfeasible | SingularPath.

(** The line the program prints for each of them. *)
Definition message (e : FeasibilityError) : string :=
  match e with
  | OutOfRange => "Position(s) is(are) not in the operable range. Terminating ..."
  | PathInfeasible => "Straight-line trajectory is not possible. Terminating ..."
  | SingularPath => "Straight-line trajectory includes a singular point. Terminating ..."
  end.

(** [w] after more text has gone to [cout]. *)
Definition emit {T} (w : world T) (ts : list (text T)) : world T :=
  World (cin w) (cout w ++ ts).

(** Started in world [w], [p] prints the message of [e] and exits with
    status 0. *)
Definition signals {T} (e : FeasibilityError) (p : prog T bool) (w : world T) : Prop :=
  p w = Exited 0 (emit w [Lit (message e); Lit endl]).

(** Started in world [w], [p] returns [true] and leaves the world alone. *)
Definition accepts {T} (p : prog T bool) (w : world T) : Prop :=
  p w = Returned true w.

Section FeasibilityTests.
Context {T : Type} {AT : Arith T}.
Local Open Scope dbl_scope.

(** The first test of [is_given_inputs_feasible], for one endpoint. *)
Definition out_of_range (L p : coord T) : bool :=
  (norm (x p) (y p) >? x L + y L) || (norm (x p) (y p) <? fabs (x L - y L)).

(** The divisor and the value of the local [d] of
    [is_given_inputs_feasible]. *)
Definition clearance_divisor (pos_init pos_des : coord T) : T :=
  let a := y pos_init - y pos_des in
  let b := - x pos_init + x pos_des in
  fsqrt (a * a + b * b).

Definition clearance (pos_init pos_des : coord T) : T :=
  let c := y pos_init * (x pos_init - x pos_des)
           - (y pos_init - y pos_des) * x pos_init in
  fabs c / clearance_divisor pos_init pos_des.

(** The reachable annulus as the specification words it:
    [|L1 - L2| <= norm p <= L1 + L2]. *)
Definition reachable (L p : coord T) : bool :=
  (fabs (x L - y L) <=? norm (x p) (y p)) && (norm (x p) (y p) <=? x L + y L).

(** The distance of the origin to the line through [start] and [goal] as the
    specification words it, with [b = x1 - x0]. *)
Definition line_distance (start goal : coord T) : T :=
  let a := y start - y goal in
  let b := x goal - x start in
  let c := y start * (x start - x goal) - (y start - y goal) * x start in
  fabs c / fsqrt (a * a + b * b).

(** A value that compares equal to itself: anything but a NaN. *)
Definition ordered (v : T) : bool := v == v.

End FeasibilityTests.

(** ** Laws shared by the two arithmetics

    What the proofs about control flow need from the arithmetic, and nothing
    about rounding: the order is total on values that are not NaN, [-a + b]
    is [b - a], and the integers 0..50 that the loop of [main] counts with
    are exact. *)
Class ArithLaws (T : Type) {AT : Arith T} : Prop := {
  fle_not_flt : forall a b : T, fle a b = true -> flt b a = false;
  not_flt_fle : forall a b : T,
    ordered a = true -> ordered b = true -> flt b a = false -> fle a b = true;
  fopp_fadd : forall a b : T, fadd (fopp a) b = fsub b a;
  lit_flt : forall a b : Z,
    (0 <= a <= 50)%Z -> (0 <= b <= 50)%Z -> flt (lit a) (lit b) = (a <? b)%Z;
  lit_feq : forall a b : Z,
    (0 <= a <= 50)%Z -> (0 <= b <= 50)%Z -> feq (lit a) (lit b) = (a =? b)%Z;
  lit_succ : forall a : Z, (0 <= a < 50)%Z -> fadd (lit a) (lit 1) = lit (a + 1);
  lit_pred : fsub (lit 50) (lit 1) = lit 49
}.

(** ** What [main] prints *)

Section Table.
Context {T : Type} {AT : Arith T} {MT : Libm T}.
Local Open Scope dbl_scope.

(** The six prompts of [assign_pos_init], [assign_pos_des] and
    [assign_link_length]. *)
Definition prompts : list (text T) :=
  [Lit "Type the x coordinate of the initial position of the end-effector:"; Lit endl;
   Lit "Type the y coordinate of the initial position of the end-effector:"; Lit endl;
   Lit "Type the x coordinate of the desired position of the end-effector:"; Lit endl;
   Lit "Type the y coordinate of the desired position of the end-effector:"; Lit endl;
   Lit "Type the length of the first link:"; Lit endl;
   Lit "Type the length of the second link:"; Lit endl].

(** The two heading lines of the table. *)
Definition header : list (text T) :=
  [Lit "Angle 1 [rad]"; Lit " | "; Lit "Angle 2 [rad]"; Lit " | ";
   Lit "x, end-effector"; Lit " | "; Lit "y, end-effector"; Lit endl;
   Lit "--------------------------------------------------------------------"; Lit endl].

(** The position [main] computes in the pass whose counter [i] has
    [i + 1.0 = k]: [pos_init + (pos_des - pos_init) * k / N], multiplication
    before division as C++ parses it. *)
Definition waypoint (pos_init pos_des : coord T) (N k : T) : coord T :=
  Coord (x pos_init + (x pos_des - x pos_init) * k / N)
        (y pos_init + (y pos_des - y pos_init) * k / N).

(** Entry [k] of the reported sequence, a position and its joint angles:
    the start for [k = 0], the [k]-th waypoint after it. *)
Definition entry_at (pos_init pos_des L : coord T) (k : nat) : coord T * coord T :=
  let p :=
    match k with
    | O => pos_init
    | S _ => waypoint pos_init pos_des (lit 50) (lit (Z.of_nat k))
    end in
  (p, from_pos_to_angle p L).

(** The reported sequence: the start and the 50 waypoints. *)
Definition trajectory (pos_init pos_des L : coord T) : list (coord T * coord T) :=
  map (entry_at pos_init pos_des L) (seq 0 51).

(** One line of the table: angles, position, an annotation, a newline. *)
Definition row (tag : list (text T)) (e : coord T * coord T) : list (text T) :=
  [prd (x (snd e)) 3 13; Lit " | "; prd (y (snd e)) 3 13; Lit " | ";
   prd (x (fst e)) 3 15; Lit " | "; prd (y (fst e)) 3 15] ++ tag ++ [Lit endl].

Definition tag_of (k : nat) : list (text T) :=
  match k with
  | O => [Lit " (initial)"]
  | S _ => if (k =? 50)%nat then [Lit " (final)"] else []
  end.

(** The table below its heading: one line per entry of the trajectory, the
    first annotated [(initial)] and the last [(final)]. *)
Definition report (pos_init pos_des L : coord T) : list (text T) :=
  List.concat (map (fun ke => row (tag_of (fst ke)) (snd ke))
              (combine (seq 0 51) (trajectory pos_init pos_des L))).

End Table.

(** The forward kinematics of the arm, in the words of the specification
    (the program has no such function; the round-trip property is stated
    with it): the tip of link 2 for joint angles [(theta1, theta2)]. *)
Definition forward_kinematics {T : Type} {AT : Arith T} {MT : Libm T}
    (L angles : coord T) : coord T :=
  let theta1 := x angles in
  let theta2 := y angles in
  Coord (x L * fcos theta1 + y L * fcos (theta1 + theta2))%dbl
        (x L * fsin theta1 + y L * fsin (theta1 + theta2))%dbl.

(** ** Vocabulary for the specification of binary64 ([spec_float]) *)

Definition not_nan (a : spec_float) : bool :=
  match a with S754_nan => false | _ => true end.

(** A zero or a finite non-zero number. *)
Definition SFfin (a : spec_float) : bool :=
  match a with S754_zero _ | S754_finite _ _ _ => true | _ => false end.

(** [a] is not a NaN and has sign bit [s]. *)
Definition has_sign (s : bool) (a : spec_float) : Prop :=
  match a with
  | S754_nan => False
  | S754_zero s' | S754_infinity s' | S754_finite s' _ _ => s' = s
  end.

(** The integers the loop of [main] counts with. *)
Definition small : list Z := map Z.of_nat (seq 0 51).

(** A NaN, or a value whose sign bit is clear: what compares neither below
    [+0] nor below a NaN. *)
Definition SFnonneg (a : spec_float) : bool :=
  match a with
  | S754_nan => true
  | S754_zero s | S754_infinity s | S754_finite s _ _ => negb s
  end.

(** * Lemmas *)

(** ** The feasibility check by cases *)

Section CheckCases.
Context {T : Type} {AT : Arith T}.
Local Open Scope dbl_scope.

Lemma puts_emit (ts : list (text T)) (w : world T) :
  puts ts w = Returned tt (emit w ts).
Proof.
  revert w. induction ts as [|t ts IH]; intros [i o]; unfold emit; simpl.
  - now rewrite app_nil_r.
  - unfold bind, put. simpl. rewrite IH. unfold emit. simpl.
    now rewrite <- app_assoc.
Qed.

(** The check as a three-way case analysis on its tests. *)
Lemma is_given_inputs_feasible_cases (pos_init pos_des L : coord T) (w : world T) :
  is_given_inputs_feasible pos_init pos_des L w =
  if out_of_range L pos_init || out_of_range L pos_des then
    Exited 0 (emit w [Lit (message OutOfRange); Lit endl])
  else if clearance pos_init pos_des <? fabs (x L - y L) then
    Exited 0 (emit w [Lit (message PathInfeasible); Lit endl])
  else if (x L == y L) && (clearance pos_init pos_des == lit 0) then
    Exited 0 (emit w [Lit (message SingularPath); Lit endl])
  else Returned true w.
Proof.
  unfold is_given_inputs_feasible, out_of_range, clearance, clearance_divisor.
  cbv zeta. rewrite <- orb_assoc.
  repeat match goal with
         | |- context [if ?b then _ else _] => destruct b
         end;
    unfold bind; rewrite ?puts_emit; reflexivity.
Qed.

Lemma message_inj (e1 e2 : FeasibilityError) : message e1 = message e2 -> e1 = e2.
Proof. destruct e1, e2; simpl; intros H; try reflexivity; discriminate H. Qed.

Lemma exited_message_inj (e1 e2 : FeasibilityError) (w : world T) :
  Exited (A := bool) 0 (emit w [Lit (message e1); Lit endl])
  = Exited 0 (emit w [Lit (message e2); Lit endl]) -> e1 = e2.
Proof.
  unfold emit. intros H. injection H as H. apply app_inv_head in H.
  injection H as H. now apply message_inj.
Qed.

(** Which error is signalled, read off the three tests. *)
Lemma signals_iff (e : FeasibilityError) (pos_init pos_des L : coord T) (w : world T) :
  signals e (is_given_inputs_feasible pos_init pos_des L) w <->
  match e with
  | OutOfRange => out_of_range L pos_init || out_of_range L pos_des = true
  | PathInfeasible =>
      out_of_range L pos_init || out_of_range L pos_des = false
      /\ (clearance pos_init pos_des <? fabs (x L - y L)) = true
  | SingularPath =>
      out_of_range L pos_init || out_of_range L pos_des = false
      /\ (clearance pos_init pos_des <? fabs (x L - y L)) = false
      /\ (x L == y L) && (clearance pos_init pos_des == lit 0) = true
  end.
Proof.
  unfold signals. rewrite is_given_inputs_feasible_cases.
  destruct (out_of_range L pos_init || out_of_range L pos_des);
    [|destruct (clearance pos_init pos_des <? fabs (x L - y L));
      [|destruct ((x L == y L) && (clearance pos_init pos_des == lit 0))]];
    destruct e; split; intros H;
    try reflexivity; try (apply exited_message_inj in H; discriminate H);
    try discriminate H; try tauto;
    repeat match goal with H : _ /\ _ |- _ => destruct H end; try discriminate.
Qed.

Lemma accepts_iff (pos_init pos_des L : coord T) (w : world T) :
  accepts (is_given_inputs_feasible pos_init pos_des L) w <->
  out_of_range L pos_init || out_of_range L pos_des = false
  /\ (clearance pos_init pos_des <? fabs (x L - y L)) = false
  /\ (x L == y L) && (clearance pos_init pos_des == lit 0) = false.
Proof.
  unfold accepts. rewrite is_given_inputs_feasible_cases.
  destruct (out_of_range L pos_init || out_of_range L pos_des);
    [|destruct (clearance pos_init pos_des <? fabs (x L - y L));
      [|destruct ((x L == y L) && (clearance pos_init pos_des == lit 0))]];
    split; intros H; try discriminate H; try tauto;
    repeat match goal with H : _ /\ _ |- _ => destruct H end; try discriminate.
Qed.

End CheckCases.

(** ** Binary64 *)

Module B64.

(** Facts about the specification of binary64 ([spec_float]). *)

Lemma SFcompare_swap (a b : spec_float) :
  SFcompare b a = option_map CompOpp (SFcompare a b).
Proof.
  destruct a as [[]|[]| |[] m1 e1], b as [[]|[]| |[] m2 e2]; simpl; try reflexivity;
    rewrite (Z.compare_antisym e1 e2); destruct (e1 ?= e2)%Z; simpl; try reflexivity;
    rewrite (Pos.compare_cont_antisym m1 m2 Eq); simpl; reflexivity.
Qed.

Lemma SFcompare_refl (a : spec_float) : not_nan a = true -> SFcompare a a = Some Eq.
Proof.
  destruct a as [sa|sa| |sa ma ea]; simpl; try discriminate; intros _.
  - reflexivity.
  - now destruct sa.
  - rewrite Z.compare_refl, Pos.compare_cont_refl. now destruct sa.
Qed.

Lemma SFleb_not_SFltb (a b : spec_float) : SFleb a b = true -> SFltb b a = false.
Proof.
  unfold SFleb, SFltb. rewrite (SFcompare_swap a b).
  destruct (SFcompare a b) as [[]|]; simpl; congruence.
Qed.

Lemma not_SFltb_SFleb (a b : spec_float) :
  not_nan a = true -> not_nan b = true -> SFltb b a = false -> SFleb a b = true.
Proof.
  unfold SFleb, SFltb. rewrite (SFcompare_swap a b). intros Ha Hb.
  assert (exists c, SFcompare a b = Some c) as [c ->].
  { destruct a, b; simpl in *; try discriminate; eauto. }
  destruct c; simpl; congruence.
Qed.

Lemma SFeqb_refl_iff (a : spec_float) : SFeqb a a = not_nan a.
Proof.
  unfold SFeqb. destruct (not_nan a) eqn:Ha.
  - now rewrite SFcompare_refl.
  - destruct a; try discriminate. reflexivity.
Qed.

Lemma has_sign_not_nan (s : bool) (a : spec_float) : has_sign s a -> not_nan a = true.
Proof. destruct a; simpl; auto. Qed.

(** Rounding never turns a non-negative mantissa into a NaN, and keeps the
    sign it is given. *)
Lemma shr_1_nonneg (r : shr_record) : (0 <= shr_m r)%Z -> (0 <= shr_m (shr_1 r))%Z.
Proof.
  destruct r as [m rr ss]. simpl. destruct m as [|[p|p|]|[p|p|]]; simpl; lia.
Qed.

Lemma iter_pos_shr_1_nonneg (p : positive) :
  forall r, (0 <= shr_m r)%Z -> (0 <= shr_m (SpecFloat.iter_pos shr_1 p r))%Z.
Proof. induction p; intros r Hr; simpl; auto using shr_1_nonneg. Qed.

Lemma shr_fexp_nonneg (m e : Z) (l : location) :
  (0 <= m)%Z -> (0 <= shr_m (fst (shr_fexp prec emax m e l)))%Z.
Proof.
  intros Hm. unfold shr_fexp, shr.
  assert (0 <= shr_m (shr_record_of_loc m l))%Z as H0
    by (destruct l as [|[]]; exact Hm).
  destruct (fexp prec emax (Zdigits2 m + e) - e)%Z; simpl; auto using iter_pos_shr_1_nonneg.
Qed.

Lemma round_nearest_even_nonneg (m : Z) (l : location) :
  (0 <= m)%Z -> (0 <= round_nearest_even m l)%Z.
Proof. intros; destruct l as [|[]]; simpl; try lia. destruct (Z.even m); lia. Qed.

Lemma binary_round_aux_sign (s : bool) (m e : Z) (l : location) :
  (0 <= m)%Z -> has_sign s (binary_round_aux prec emax s m e l).
Proof.
  intros Hm. unfold binary_round_aux.
  pose proof (shr_fexp_nonneg m e l Hm) as H1.
  destruct (shr_fexp prec emax m e l) as [r1 e1]. simpl in H1.
  pose proof (shr_fexp_nonneg _ e1 loc_Exact
                (round_nearest_even_nonneg _ (loc_of_shr_record r1) H1)) as H2.
  destruct (shr_fexp prec emax _ e1 loc_Exact) as [r2 e2]. simpl in H2.
  destruct (shr_m r2) as [|p|p]; simpl; [reflexivity| |lia].
  match goal with |- context [if ?c then _ else _] => destruct c end; reflexivity.
Qed.

Lemma binary_round_sign (s : bool) (m : positive) (e : Z) :
  has_sign s (binary_round prec emax s m e).
Proof.
  unfold binary_round. destruct (shl_align _ _ _) as [mz ez].
  apply binary_round_aux_sign. lia.
Qed.

Lemma binary_normalize_not_nan (m e : Z) (sz : bool) :
  not_nan (binary_normalize prec emax m e sz) = true.
Proof.
  destruct m; simpl; auto; eapply has_sign_not_nan; apply binary_round_sign.
Qed.

Lemma SF64mul_square_sign (a : spec_float) :
  SFfin a = true -> has_sign false (SF64mul a a).
Proof.
  destruct a as [sa|sa| |sa ma ea]; simpl; try discriminate; intros _.
  - now destruct sa.
  - replace (xorb sa sa) with false by now destruct sa.
    apply binary_round_aux_sign. lia.
Qed.

Lemma SF64add_nonneg (a b : spec_float) :
  has_sign false a -> has_sign false b -> has_sign false (SF64add a b).
Proof.
  destruct a as [sa|sa| |sa ma ea], b as [sb|sb| |sb mb eb]; simpl; try tauto;
    intros -> ->; simpl; auto.
  apply binary_round_sign.
Qed.

Lemma SF64sqrt_nonneg (a : spec_float) :
  has_sign false a -> has_sign false (SF64sqrt a).
Proof.
  destruct a as [sa|sa| |sa ma ea]; simpl; try tauto; intros ->; simpl; auto.
  unfold SFsqrt_core_binary.
  set (m' := match _ with Z0 => _ | Zpos _ => _ | Zneg _ => _ end).
  pose proof (Z.sqrtrem_sqrt m') as Hq. pose proof (Z.sqrt_nonneg m') as Hn.
  destruct (Z.sqrtrem m') as [q r]. simpl in Hq. subst q.
  apply binary_round_aux_sign. exact Hn.
Qed.

Lemma SF64add_fin_not_nan (a b : spec_float) :
  SFfin a = true -> SFfin b = true -> not_nan (SF64add a b) = true.
Proof.
  destruct a as [sa|sa| |sa ma ea], b as [sb|sb| |sb mb eb]; simpl; try discriminate;
    intros _ _; auto.
  - now destruct sa, sb.
  - apply binary_normalize_not_nan.
Qed.

Lemma SF64sub_fin_not_nan (a b : spec_float) :
  SFfin a = true -> SFfin b = true -> not_nan (SF64sub a b) = true.
Proof.
  destruct a as [sa|sa| |sa ma ea], b as [sb|sb| |sb mb eb]; simpl; try discriminate;
    intros _ _; auto.
  - now destruct sa, sb.
  - apply binary_normalize_not_nan.
Qed.

Lemma SFabs_not_nan (a : spec_float) : not_nan (SFabs a) = not_nan a.
Proof. now destruct a. Qed.

Lemma SF64sub_diag (a : spec_float) : SFfin a = true -> SF64sub a a = S754_zero false.
Proof.
  destruct a as [sa|sa| |sa ma ea]; simpl; try discriminate; intros _.
  - now destruct sa.
  - now rewrite Z.sub_diag.
Qed.

Lemma SF64add_opp_diag (a : spec_float) :
  SFfin a = true -> SF64add (SFopp a) a = S754_zero false.
Proof.
  destruct a as [sa|sa| |sa ma ea]; simpl; try discriminate; intros _.
  - now destruct sa.
  - destruct sa; simpl; now rewrite Z.pos_sub_diag.
Qed.

Lemma SF64add_opp_sub (a b : spec_float) : SF64add (SFopp a) b = SF64sub b a.
Proof.
  destruct a as [sa|sa| |sa ma ea], b as [sb|sb| |sb mb eb]; simpl; try reflexivity;
    try (now destruct sa, sb).
  rewrite (Z.min_comm eb ea).
  f_equal. destruct sa, sb; simpl; lia.
Qed.

(** The same facts on the primitive floats the program computes with. *)

Local Open Scope float_scope.

Lemma is_finite_SFfin (v : float) : is_finite v = true -> SFfin (Prim2SF v) = true.
Proof.
  unfold is_finite, is_nan, is_infinity.
  rewrite !eqb_spec, abs_spec, SFeqb_refl_iff.
  change (Prim2SF infinity) with (S754_infinity false).
  destruct (Prim2SF v) as [sa|sa| |sa ma ea]; simpl; auto.
Qed.

Lemma ordered_not_nan (v : float) : ordered v = not_nan (Prim2SF v).
Proof. unfold ordered; simpl. now rewrite eqb_spec, SFeqb_refl_iff. Qed.

Lemma norm_has_sign (a b : float) :
  is_finite a = true -> is_finite b = true -> has_sign false (Prim2SF (norm a b)).
Proof.
  intros Ha%is_finite_SFfin Hb%is_finite_SFfin. unfold norm; simpl.
  rewrite sqrt_spec, add_spec, !mul_spec.
  apply SF64sqrt_nonneg, SF64add_nonneg; now apply SF64mul_square_sign.
Qed.

Lemma norm_ordered (a b : float) :
  is_finite a = true -> is_finite b = true -> ordered (norm a b) = true.
Proof.
  intros Ha Hb. rewrite ordered_not_nan.
  eapply has_sign_not_nan, norm_has_sign; eassumption.
Qed.

Lemma sum_ordered (a b : float) :
  is_finite a = true -> is_finite b = true -> ordered (fadd a b) = true.
Proof.
  intros Ha%is_finite_SFfin Hb%is_finite_SFfin. rewrite ordered_not_nan; simpl.
  rewrite add_spec. now apply SF64add_fin_not_nan.
Qed.

Lemma abs_diff_ordered (a b : float) :
  is_finite a = true -> is_finite b = true -> ordered (fabs (fsub a b)) = true.
Proof.
  intros Ha%is_finite_SFfin Hb%is_finite_SFfin. rewrite ordered_not_nan; simpl.
  rewrite abs_spec, sub_spec, SFabs_not_nan. now apply SF64sub_fin_not_nan.
Qed.

(** Differences of a finite number with itself are [+0]. *)
Lemma sub_diag (v : float) : is_finite v = true -> v - v = zero.
Proof.
  intros Hv%is_finite_SFfin. apply Prim2SF_inj.
  rewrite sub_spec. now apply SF64sub_diag.
Qed.

Lemma opp_add_diag (v : float) : is_finite v = true -> - v + v = zero.
Proof.
  intros Hv%is_finite_SFfin. apply Prim2SF_inj.
  rewrite add_spec, opp_spec. now apply SF64add_opp_diag.
Qed.

(** [|v * 0 - 0 * u|] is [+0] for finite [u] and [v]. *)
Lemma abs_zero_products (v u : float) :
  is_finite v = true -> is_finite u = true -> abs (v * zero - zero * u) = zero.
Proof.
  intros Hv%is_finite_SFfin Hu%is_finite_SFfin. apply Prim2SF_inj.
  rewrite abs_spec, sub_spec, !mul_spec.
  change (Prim2SF zero) with (S754_zero false).
  destruct (Prim2SF v) as [sv|sv| |sv mv ev], (Prim2SF u) as [su|su| |su mu eu];
    try discriminate; simpl; destruct sv, su; reflexivity.
Qed.

(** NaN is absorbing. *)
Lemma is_nan_spec (v : float) : is_nan v = negb (not_nan (Prim2SF v)).
Proof. unfold is_nan. now rewrite eqb_spec, SFeqb_refl_iff. Qed.

Lemma add_nan_r (a b : float) : is_nan b = true -> is_nan (a + b) = true.
Proof.
  rewrite !is_nan_spec, add_spec.
  destruct (Prim2SF b); try discriminate. now destruct (Prim2SF a).
Qed.

Lemma mul_nan_r (a b : float) : is_nan b = true -> is_nan (a * b) = true.
Proof.
  rewrite !is_nan_spec, mul_spec.
  destruct (Prim2SF b); try discriminate. now destruct (Prim2SF a).
Qed.

Lemma abs_sub_nan_leb (a c t : float) : is_nan a = true -> (abs (a - c) <=? t) = false.
Proof.
  rewrite is_nan_spec, leb_spec, abs_spec, sub_spec.
  destruct (Prim2SF a); try discriminate. reflexivity.
Qed.

(** A NaN is below nothing and equal to nothing. *)
Lemma nan_ltb (v : float) : (nan <? v) = false.
Proof. rewrite ltb_spec. reflexivity. Qed.

Lemma nan_eqb (v : float) : (nan =? v) = false.
Proof. rewrite eqb_spec. reflexivity. Qed.

(** The integers the loop counts with are exact: checked one by one. *)
Lemma in_small (a : Z) : (0 <= a <= 50)%Z -> In a small.
Proof.
  intros Ha. unfold small. rewrite <- (Z2Nat.id a) by lia.
  apply in_map, in_seq. lia.
Qed.

Lemma small_flt :
  forallb (fun a =>
             forallb (fun b => Bool.eqb (flt (lit a : float) (lit b)) (a <? b)%Z) small)
          small = true.
Proof. vm_compute. reflexivity. Qed.

Lemma small_feq :
  forallb (fun a =>
             forallb (fun b => Bool.eqb (feq (lit a : float) (lit b)) (a =? b)%Z) small)
          small = true.
Proof. vm_compute. reflexivity. Qed.

Lemma small_succ :
  forallb (fun a =>
             (a =? 50)%Z
             || PrimFloat.Leibniz.eqb (fadd (lit a : float) (lit 1)) (lit (a + 1)))
          small = true.
Proof. vm_compute. reflexivity. Qed.

End B64.

#[export] Instance binary64_laws : ArithLaws float.
Proof.
  split.
  - intros a b. simpl. rewrite leb_spec, ltb_spec. apply B64.SFleb_not_SFltb.
  - intros a b. rewrite !B64.ordered_not_nan. simpl. rewrite leb_spec, ltb_spec.
    apply B64.not_SFltb_SFleb.
  - intros a b. simpl. apply Prim2SF_inj.
    rewrite add_spec, opp_spec, sub_spec. apply B64.SF64add_opp_sub.
  - intros a b Ha%B64.in_small Hb%B64.in_small.
    pose proof B64.small_flt as H. rewrite forallb_forall in H.
    specialize (H a Ha). rewrite forallb_forall in H.
    now apply Bool.eqb_prop, H.
  - intros a b Ha%B64.in_small Hb%B64.in_small.
    pose proof B64.small_feq as H. rewrite forallb_forall in H.
    specialize (H a Ha). rewrite forallb_forall in H.
    now apply Bool.eqb_prop, H.
  - intros a Ha.
    pose proof B64.small_succ as H. rewrite forallb_forall in H.
    specialize (H a (B64.in_small a ltac:(lia))).
    apply orb_true_iff in H as [H|H]; [apply Z.eqb_eq in H; lia|].
    now apply FloatAxioms.Leibniz.eqb_spec.
  - now apply FloatAxioms.Leibniz.eqb_spec.
Qed.

(** *** Exact reals *)

#[export] Instance exact_laws : ArithLaws R.
Proof.
  split; simpl; unfold ordered, Rltb, Rleb, Reqb; simpl.
  - intros a b. destruct (Rle_dec a b), (Rlt_dec b a); auto; lra.
  - intros a b _ _. destruct (Rle_dec a b), (Rlt_dec b a); auto; lra.
  - intros a b. ring.
  - intros a b _ _. destruct (Rlt_dec (IZR a) (IZR b)) as [H|H], (Z.ltb_spec a b); auto.
    + apply lt_IZR in H. lia.
    + exfalso. apply H. now apply IZR_lt.
  - intros a b _ _. destruct (Req_dec_T (IZR a) (IZR b)) as [H|H], (Z.eqb_spec a b); auto.
    + apply eq_IZR in H. contradiction.
    + subst. contradiction.
  - intros a _. now rewrite plus_IZR.
  - lra.
Qed.

(** ** What [main] prints, line by line *)

Section Report.
Context {T : Type} {AT : Arith T} {MT : Libm T}.
Local Open Scope dbl_scope.

Lemma report_rows (pos_init pos_des L : coord T) :
  report pos_init pos_des L
  = flat_map (fun k => row (tag_of k) (entry_at pos_init pos_des L k)) (seq 0 51).
Proof.
  unfold report, trajectory. generalize (seq 0 51).
  induction l as [|k l IH]; simpl; [reflexivity|]. now rewrite IH.
Qed.

Lemma emit_nil (w : world T) : emit w [] = w.
Proof. destruct w as [i o]. unfold emit; simpl. now rewrite app_nil_r. Qed.

Lemma emit_emit (w : world T) (ts us : list (text T)) :
  emit (emit w ts) us = emit w (ts ++ us).
Proof. unfold emit; simpl. now rewrite app_assoc. Qed.

Lemma header_eq :
  [Lit (center "Angle 1 [rad]" 13); Lit " | ";
   Lit (center "Angle 2 [rad]" 13); Lit " | ";
   Lit (center "x, end-effector" 15); Lit " | ";
   Lit (center "y, end-effector" 15); Lit endl;
   Lit (replicate (15*2 + 15*2 + 2*4) "-"); Lit endl] = @header T.
Proof. reflexivity. Qed.

(** Reading the six numbers: [main] up to the feasibility check. *)
Lemma main_reads (fuel : nat) (x0 y0 x1 y1 l1 l2 : T) (rest : list T) (out : list (text T)) :
  main fuel (World (x0 :: y0 :: x1 :: y1 :: l1 :: l2 :: rest) out) =
  match is_given_inputs_feasible (Coord x0 y0) (Coord x1 y1) (Coord l1 l2)
          (World rest (out ++ prompts)) with
  | Returned _ w =>
      match for_i fuel (lit 0) (lit 50)
              (main_loop_body (Coord x0 y0) (Coord x1 y1) (Coord l1 l2) (lit 50))
              (emit w (header ++ row [Lit " (initial)"]
                                   (Coord x0 y0, from_pos_to_angle (Coord x0 y0) (Coord l1 l2))))
      with
      | Returned _ w' => Returned 0%Z w'
      | Exited s w' => Exited s w'
      | Undefined => Undefined
      | OutOfFuel => OutOfFuel
      end
  | Exited s w => Exited s w
  | Undefined => Undefined
  | OutOfFuel => OutOfFuel
  end.
Proof.
  unfold main, assign_pos_init, assign_pos_des, assign_link_length, bind, get.
  rewrite !puts_emit. simpl.
  match goal with
  | |- context [World rest ?o] =>
      replace o with (out ++ prompts)
        by (unfold prompts; rewrite <- !app_assoc; reflexivity)
  end.
  destruct (is_given_inputs_feasible _ _ _ _) as [b w| | |]; try reflexivity.
  match goal with
  | |- match for_i _ _ _ _ ?w1 with _ => _ end = match for_i _ _ _ _ ?w2 with _ => _ end =>
      replace w1 with w2; [reflexivity|]
  end.
  unfold emit, header, row, from_pos_to_angle. simpl.
  now rewrite <- !app_assoc.
Qed.

End Report.

Section Loop.
Context {T : Type} {AT : Arith T} {MT : Libm T} {LT : ArithLaws T}.
Local Open Scope dbl_scope.

(** The pass with counter [i = k] prints line [k + 1] of the table. *)
Lemma main_loop_body_row (pos_init pos_des L : coord T) (k : nat) (w : world T) :
  (k < 50)%nat ->
  main_loop_body pos_init pos_des L (lit 50) (lit (Z.of_nat k)) w
  = Returned tt (emit w (row (tag_of (S k)) (entry_at pos_init pos_des L (S k)))).
Proof.
  intros Hk. unfold main_loop_body.
  rewrite lit_succ by lia. rewrite lit_pred. rewrite lit_feq by lia.
  replace (Z.of_nat k + 1)%Z with (Z.of_nat (S k)) by lia.
  unfold tag_of, entry_at, waypoint, row.
  destruct (Z.eqb_spec (Z.of_nat k) 49) as [E|E].
  - assert (S k = 50)%nat as -> by lia. simpl Nat.eqb. cbv iota.
    now rewrite puts_emit.
  - destruct (Nat.eqb_spec (S k) 50) as [E'|E']; [lia|].
    now rewrite puts_emit.
Qed.

(** From counter [k] on, the loop prints lines [k + 1 .. 50] and stops. *)
Lemma for_i_rows (pos_init pos_des L : coord T) (n : nat) :
  forall (k fuel : nat) (w : world T),
  (k + n = 50)%nat -> (n < fuel)%nat ->
  for_i fuel (lit (Z.of_nat k)) (lit 50) (main_loop_body pos_init pos_des L (lit 50)) w
  = Returned tt
      (emit w (flat_map (fun j => row (tag_of j) (entry_at pos_init pos_des L j))
                        (seq (S k) n))).
Proof.
  induction n as [|n IH]; intros k fuel w Hk Hfuel;
    (destruct fuel as [|fuel]; [lia|]); simpl for_i.
  - rewrite lit_flt by lia. replace k with 50%nat by lia. simpl.
    now rewrite emit_nil.
  - rewrite lit_flt by lia.
    destruct (Z.ltb_spec (Z.of_nat k) 50) as [_|?]; [|lia].
    unfold bind. rewrite main_loop_body_row by lia.
    rewrite lit_succ by lia.
    replace (Z.of_nat k + 1)%Z with (Z.of_nat (S k)) by lia.
    rewrite IH by lia. rewrite emit_emit. reflexivity.
Qed.

(** An accepted input: [main] returns 0 after printing the prompts, the
    heading and the 51 lines of the trajectory. *)
Lemma main_reports (fuel : nat) (x0 y0 x1 y1 l1 l2 : T) (rest : list T) (out : list (text T)) :
  (51 <= fuel)%nat ->
  accepts (is_given_inputs_feasible (Coord x0 y0) (Coord x1 y1) (Coord l1 l2))
          (World rest (out ++ prompts)) ->
  main fuel (World (x0 :: y0 :: x1 :: y1 :: l1 :: l2 :: rest) out)
  = Returned 0%Z
      (World rest (out ++ prompts ++ header
                       ++ report (Coord x0 y0) (Coord x1 y1) (Coord l1 l2))).
Proof.
  intros Hfuel Hacc. rewrite main_reads. rewrite Hacc.
  rewrite (for_i_rows _ _ _ 50 0 fuel) by lia.
  rewrite emit_emit, report_rows. unfold emit; simpl cin; simpl cout.
  rewrite <- !app_assoc. reflexivity.
Qed.

(** A rejected input: [main] exits with status 0 right after the message. *)
Lemma main_exits (fuel : nat) (e : FeasibilityError) (x0 y0 x1 y1 l1 l2 : T)
    (rest : list T) (out : list (text T)) :
  signals e (is_given_inputs_feasible (Coord x0 y0) (Coord x1 y1) (Coord l1 l2))
          (World rest (out ++ prompts)) ->
  main fuel (World (x0 :: y0 :: x1 :: y1 :: l1 :: l2 :: rest) out)
  = Exited 0 (World rest (out ++ prompts ++ [Lit (message e); Lit endl])).
Proof.
  intros Hsig. rewrite main_reads. rewrite Hsig.
  unfold emit; simpl. now rewrite <- app_assoc.
Qed.

End Loop.

(** ** The feasibility check against the specification *)

Section Annulus.
Context {T : Type} {AT : Arith T} {LT : ArithLaws T}.
Local Open Scope dbl_scope.

Lemma fle_negb_flt (a b : T) :
  ordered a = true -> ordered b = true -> fle a b = negb (flt b a).
Proof.
  intros Ha Hb. destruct (flt b a) eqn:E; simpl.
  - destruct (fle a b) eqn:E'; [|reflexivity].
    apply fle_not_flt in E'. congruence.
  - now apply not_flt_fle.
Qed.

(** A position in the annulus passes the first test of the program. *)
Lemma reachable_in_range (L p : coord T) :
  reachable L p = true -> out_of_range L p = false.
Proof.
  unfold reachable, out_of_range. intros [H1 H2]%andb_true_iff.
  apply fle_not_flt in H1, H2. now rewrite H1, H2.
Qed.

(** Away from NaN the first test is exactly the complement of the annulus. *)
Lemma out_of_range_negb_reachable (L p : coord T) :
  ordered (norm (x p) (y p)) = true ->
  ordered (x L + y L) = true ->
  ordered (fabs (x L - y L)) = true ->
  out_of_range L p = negb (reachable L p).
Proof.
  intros Hn Hhi Hlo. unfold reachable, out_of_range.
  rewrite (fle_negb_flt _ _ Hlo Hn), (fle_negb_flt _ _ Hn Hhi).
  rewrite negb_andb, !negb_involutive. apply orb_comm.
Qed.

(** The program's [b = -x0 + x1] is the specification's [b = x1 - x0]. *)
Lemma clearance_line_distance (start goal : coord T) :
  clearance start goal = line_distance start goal.
Proof.
  unfold clearance, clearance_divisor, line_distance. cbv zeta.
  now rewrite fopp_fadd.
Qed.

End Annulus.

(** ** Facts of real arithmetic *)

Module Exact.
Local Open Scope R_scope.

(** Sine and cosine of [atan2]: the point [(u, v)] scaled to the unit
    circle. *)

Lemma sqrt_one_plus_sq (u v : R) :
  u <> 0 -> sqrt (1 + (v / u)²) = sqrt (u * u + v * v) / Rabs u.
Proof.
  intros Hu.
  replace (1 + (v / u)²) with ((u * u + v * v) / (u * u)) by (unfold Rsqr; field; exact Hu).
  rewrite sqrt_div_alt by nra.
  f_equal. fold (Rsqr u). apply sqrt_Rsqr_abs.
Qed.

Lemma cos_sin_atan2 (v u : R) :
  u <> 0 \/ v <> 0 ->
  cos (atan2 v u) = u / sqrt (u * u + v * v)
  /\ sin (atan2 v u) = v / sqrt (u * u + v * v).
Proof.
  intros H.
  assert (0 < sqrt (u * u + v * v)) as Hr by (apply sqrt_lt_R0; nra).
  unfold atan2.
  destruct (Rlt_dec 0 u) as [Hu|Hu].
  - rewrite cos_atan, sin_atan, sqrt_one_plus_sq by lra.
    rewrite Rabs_pos_eq by lra. split; field; lra.
  - destruct (Rlt_dec u 0) as [Hu'|Hu'].
    + assert (Rabs u = - u) as Habs by (apply Rabs_left; lra).
      destruct (Rle_dec 0 v).
      * rewrite cos_plus, sin_plus, cos_PI, sin_PI, cos_atan, sin_atan, sqrt_one_plus_sq by lra.
        rewrite Habs. split; field; lra.
      * rewrite cos_minus, sin_minus, cos_PI, sin_PI, cos_atan, sin_atan, sqrt_one_plus_sq by lra.
        rewrite Habs. split; field; lra.
    + assert (u = 0) as -> by lra.
      replace (0 * 0 + v * v) with (Rsqr v) in * by (unfold Rsqr; ring).
      rewrite sqrt_Rsqr_abs in *.
      destruct (Rlt_dec 0 v) as [Hv|Hv].
      * rewrite cos_PI2, sin_PI2, Rabs_pos_eq by lra. split; field; lra.
      * destruct (Rlt_dec v 0) as [Hv'|Hv'].
        -- rewrite cos_neg, sin_neg, cos_PI2, sin_PI2, Rabs_left by lra. split; field; lra.
        -- exfalso. destruct H; lra.
Qed.

(** The boolean comparisons of the real instance. *)

Lemma Rltb_true (a b : R) : Rltb a b = true <-> a < b.
Proof. unfold Rltb. destruct (Rlt_dec a b); split; auto; discriminate. Qed.

Lemma Rleb_true (a b : R) : Rleb a b = true <-> a <= b.
Proof. unfold Rleb. destruct (Rle_dec a b); split; auto; discriminate. Qed.

Lemma Rltb_false (a b : R) : Rltb a b = false <-> b <= a.
Proof. unfold Rltb. destruct (Rlt_dec a b); split; auto; try discriminate; lra. Qed.

Lemma Rleb_false (a b : R) : Rleb a b = false <-> b < a.
Proof. unfold Rleb. destruct (Rle_dec a b); split; auto; try discriminate; lra. Qed.

Lemma Reqb_false (a b : R) : Reqb a b = false <-> a <> b.
Proof. unfold Reqb. destruct (Req_dec_T a b); split; auto; try discriminate; tauto. Qed.

(** The annulus, and what it means for the argument of [acos]. *)

Lemma reachable_exact (l1 l2 px py : R) :
  reachable (Coord l1 l2) (Coord px py) = true
  <-> Rabs (l1 - l2) <= sqrt (px * px + py * py) <= l1 + l2.
Proof.
  unfold reachable, norm; simpl. now rewrite andb_true_iff, !Rleb_true.
Qed.

(** In the annulus the squared norm lies between the squared difference and
    the squared sum of the link lengths. *)
Lemma annulus_squares (l1 l2 px py : R) :
  Rabs (l1 - l2) <= sqrt (px * px + py * py) <= l1 + l2 ->
  (l1 - l2) * (l1 - l2) <= px * px + py * py <= (l1 + l2) * (l1 + l2).
Proof.
  intros [Hlo Hhi].
  assert (0 <= px * px + py * py) as Hr2 by nra.
  pose proof (sqrt_sqrt _ Hr2) as Hs.
  pose proof (sqrt_pos (px * px + py * py)) as Hp.
  pose proof (Rabs_pos (l1 - l2)) as Ha.
  assert (Rabs (l1 - l2) * Rabs (l1 - l2) = (l1 - l2) * (l1 - l2)) as Hsq.
  { unfold Rabs. destruct (Rcase_abs (l1 - l2)); ring. }
  split; nra.
Qed.

Lemma ratio_bounds (n d : R) : 0 < d -> - d <= n <= d -> -1 <= n / d <= 1.
Proof.
  intros Hd [Hlo Hhi].
  assert (n / d * d = n) as E by (field; lra).
  split; apply Rmult_le_reg_r with d; try exact Hd; rewrite E; lra.
Qed.

Lemma acos_argument_bounds (l1 l2 px py : R) :
  0 < l1 -> 0 < l2 ->
  Rabs (l1 - l2) <= sqrt (px * px + py * py) <= l1 + l2 ->
  -1 <= (px * px + py * py - l1 * l1 - l2 * l2) / (2 * l1 * l2) <= 1.
Proof.
  intros H1 H2 [Hlo Hhi]%annulus_squares.
  apply ratio_bounds; nra.
Qed.

(** The algebra behind the round trip: rotating [(k1, k2)], of length [r],
    onto the direction of [(px, py)]. *)
Lemma fk_x_algebra (px py k1 k2 r : R) :
  r <> 0 -> k1 * k1 + k2 * k2 = r * r ->
  k1 * (px / r * (k1 / r) + py / r * (k2 / r))
  - k2 * (py / r * (k1 / r) - px / r * (k2 / r)) = px.
Proof.
  intros Hr Hk.
  replace (k1 * (px / r * (k1 / r) + py / r * (k2 / r))
           - k2 * (py / r * (k1 / r) - px / r * (k2 / r)))
    with (px * ((k1 * k1 + k2 * k2) / (r * r))) by (field; exact Hr).
  rewrite Hk. field. exact Hr.
Qed.

Lemma fk_y_algebra (px py k1 k2 r : R) :
  r <> 0 -> k1 * k1 + k2 * k2 = r * r ->
  k1 * (py / r * (k1 / r) - px / r * (k2 / r))
  + k2 * (px / r * (k1 / r) + py / r * (k2 / r)) = py.
Proof.
  intros Hr Hk.
  replace (k1 * (py / r * (k1 / r) - px / r * (k2 / r))
           + k2 * (px / r * (k1 / r) + py / r * (k2 / r)))
    with (py * ((k1 * k1 + k2 * k2) / (r * r))) by (field; exact Hr).
  rewrite Hk. field. exact Hr.
Qed.

End Exact.

(** ** The claims *)

(** C1.  For every position and every pair of link lengths,
    [from_pos_to_angle] returns the pair [(theta1, theta2)] with
    [theta2 = acos ((x*x + y*y - L1*L1 - L2*L2) / (2*L1*L2))] and
    [theta1 = atan2 (y, x) - atan2 (L2 * sin theta2, L1 + L2 * cos theta2)],
    in whichever arithmetic the operations are read: binary64 with any
    [<math.h>], or the reals, where the products are the squares of the
    formula.  Positivity of the link lengths is not needed. *)
Theorem from_pos_to_angle_formula :
  (forall (T : Type) (AT : Arith T) (MT : Libm T) (px py L1 L2 : T),
      let theta2 :=
        facos ((px * px + py * py - L1 * L1 - L2 * L2) / (lit 2 * L1 * L2))%dbl in
      let theta1 :=
        (fatan2 py px - fatan2 (L2 * fsin theta2) (L1 + L2 * fcos theta2))%dbl in
      from_pos_to_angle (Coord px py) (Coord L1 L2) = Coord theta1 theta2)
  /\ (forall px py L1 L2 : R,
        let theta2 := acos ((px² + py² - L1² - L2²) / (2 * L1 * L2)) in
        let theta1 := atan2 py px - atan2 (L2 * sin theta2) (L1 + L2 * cos theta2) in
        from_pos_to_angle (Coord px py) (Coord L1 L2) = Coord theta1 theta2)%R.
Proof.
  split.
  - intros T AT MT px py L1 L2. reflexivity.
  - intros px py L1 L2. unfold Rsqr. reflexivity.
Qed.

(** C3.  When both endpoints lie in the reachable annulus, the check
    signals [PathInfeasible] exactly when [d < |L1 - L2|], with [d] the
    distance of the origin to the line through start and goal computed as
    the specification writes it. *)
Theorem path_infeasible_iff {T : Type} {AT : Arith T} {LT : ArithLaws T}
    (start goal L : coord T) (w : world T) :
  reachable L start = true ->
  reachable L goal = true ->
  (signals PathInfeasible (is_given_inputs_feasible start goal L) w
   <-> (line_distance start goal <? fabs (x L - y L))%dbl = true).
Proof.
  intros Hs%reachable_in_range Hg%reachable_in_range.
  rewrite signals_iff, clearance_line_distance, Hs, Hg. simpl. tauto.
Qed.

(** C5.  When both endpoints lie in the annulus and [d >= |L1 - L2|], the
    check signals [SingularPath] exactly when [L1 == L2] and [d == 0], both
    read as the exact comparisons of the arithmetic. *)
Theorem singular_path_iff {T : Type} {AT : Arith T} {LT : ArithLaws T}
    (start goal L : coord T) (w : world T) :
  reachable L start = true ->
  reachable L goal = true ->
  (fabs (x L - y L) <=? line_distance start goal)%dbl = true ->
  (signals SingularPath (is_given_inputs_feasible start goal L) w
   <-> (x L == y L)%dbl = true /\ (line_distance start goal == lit 0)%dbl = true).
Proof.
  intros Hs%reachable_in_range Hg%reachable_in_range Hd%fle_not_flt.
  rewrite signals_iff, clearance_line_distance, Hs, Hg, Hd, andb_true_iff.
  simpl. tauto.
Qed.

(** C8.  Whenever the check signals an error, [main] exits with status 0;
    what it has printed by then is the six prompts followed by the message
    of that error and a newline, hence no line of the table and no number. *)
Theorem failed_check_exits {T : Type} {AT : Arith T} {MT : Libm T}
    (fuel : nat) (e : FeasibilityError) (x0 y0 x1 y1 l1 l2 : T)
    (rest : list T) (out : list (text T)) :
  signals e (is_given_inputs_feasible (Coord x0 y0) (Coord x1 y1) (Coord l1 l2))
          (World rest (out ++ prompts)) ->
  main fuel (World (x0 :: y0 :: x1 :: y1 :: l1 :: l2 :: rest) out)
  = Exited 0 (World rest (out ++ prompts ++ [Lit (message e); Lit endl]))
  /\ forall (v : T) d wd, ~ In (Fixed v d wd) (prompts ++ [Lit (message e); Lit endl]).
Proof.
  intros Hsig. split.
  - now apply main_exits.
  - intros v d wd Hin. apply in_app_or in Hin as [Hin|Hin]; simpl in Hin;
      repeat (destruct Hin as [Hin|Hin]; [discriminate Hin|]); exact Hin.
Qed.

(** C4.  On binary64, for finite coordinates and link lengths (the doubles
    that are real numbers), the check signals [OutOfRange] exactly when the
    start or the goal violates [|L1 - L2| <= norm p <= L1 + L2]; it goes on
    to the next test exactly when both endpoints satisfy it. *)
Theorem out_of_range_iff (start goal L : coord float) (w : world float) :
  is_finite (x start) = true -> is_finite (y start) = true ->
  is_finite (x goal) = true -> is_finite (y goal) = true ->
  is_finite (x L) = true -> is_finite (y L) = true ->
  (signals OutOfRange (is_given_inputs_feasible start goal L) w
   <-> reachable L start = false \/ reachable L goal = false).
Proof.
  intros Hx0 Hy0 Hx1 Hy1 Hl1 Hl2.
  rewrite signals_iff.
  rewrite !out_of_range_negb_reachable
    by auto using B64.norm_ordered, B64.sum_ordered, B64.abs_diff_ordered.
  rewrite orb_true_iff, !negb_true_iff. tauto.
Qed.

(** *** Instances on binary64 *)

Section Binary64Instances.
Local Open Scope float_scope.

(** The check rejects [L = (3, 1)], [start = (5, 5)]: the start is out of
    range (an instance of C4). *)
Lemma out_of_range_iff_witness :
  signals OutOfRange
    (is_given_inputs_feasible (Coord 5 5) (Coord 0 3) (Coord 3 1))
    (World [] []).
Proof.
  apply (out_of_range_iff (Coord 5 5) (Coord 0 3) (Coord 3 1) (World [] []));
    try (vm_compute; reflexivity).
  left. vm_compute. reflexivity.
Defined.

(** An instance of C3 on binary64: both endpoints in the annulus of
    [L = (3, 1)], and the line [y = 0.1] passes at distance 0.1 < 2. *)
Lemma path_infeasible_iff_witness :
  reachable (Coord 3 1) (Coord 3 0.1) = true
  /\ reachable (Coord 3 1) (Coord 3.5 0.1) = true
  /\ (line_distance (Coord 3 0.1) (Coord 3.5 0.1) <? fabs (3 - 1))%dbl = true
  /\ signals PathInfeasible
       (is_given_inputs_feasible (Coord 3 0.1) (Coord 3.5 0.1) (Coord 3 1))
       (World [] []).
Proof.
  split. { vm_compute; reflexivity. }
  split. { vm_compute; reflexivity. }
  split. { vm_compute; reflexivity. }
  apply (path_infeasible_iff (Coord 3 0.1) (Coord 3.5 0.1) (Coord 3 1) (World [] []));
    vm_compute; reflexivity.
Defined.

(** The check rejects [L1 = 2, L2 = 2, start = (2, 0), goal = (-2, 0)] with
    [SingularPath]: the chord passes through the origin and the links are
    equal (the instance of C5 the specification names). *)
Lemma singular_path_iff_witness :
  reachable (Coord 2 2) (Coord 2 0) = true
  /\ reachable (Coord 2 2) (Coord (-2) 0) = true
  /\ (fabs (2 - 2) <=? line_distance (Coord 2 0) (Coord (-2) 0))%dbl = true
  /\ signals SingularPath
       (is_given_inputs_feasible (Coord 2 0) (Coord (-2) 0) (Coord 2 2))
       (World [] []).
Proof.
  split. { vm_compute; reflexivity. }
  split. { vm_compute; reflexivity. }
  split. { vm_compute; reflexivity. }
  apply (singular_path_iff (Coord 2 0) (Coord (-2) 0) (Coord 2 2) (World [] [])).
  - vm_compute; reflexivity.
  - vm_compute; reflexivity.
  - vm_compute; reflexivity.
  - split; vm_compute; reflexivity.
Defined.

End Binary64Instances.

(** *** The solver over the reals *)

Section ExactSolver.
Local Open Scope R_scope.

(** C6.  Over real arithmetic, for positive link lengths and a position in
    the reachable annulus, the forward kinematics applied to the angles that
    [from_pos_to_angle] returns give the position back, exactly. *)
Theorem forward_kinematics_roundtrip (l1 l2 px py : R) :
  0 < l1 -> 0 < l2 ->
  reachable (Coord l1 l2) (Coord px py) = true ->
  forward_kinematics (Coord l1 l2) (from_pos_to_angle (Coord px py) (Coord l1 l2))
  = Coord px py.
Proof.
  intros H1 H2 Hreach%Exact.reachable_exact.
  pose proof (Exact.acos_argument_bounds l1 l2 px py H1 H2 Hreach) as Harg.
  unfold forward_kinematics, from_pos_to_angle; simpl.
  set (arg := (px * px + py * py - l1 * l1 - l2 * l2) / (2 * l1 * l2)) in *.
  set (t2 := acos arg).
  pose proof (cos_acos arg Harg) as Hc. fold t2 in Hc.
  assert (sin t2 * sin t2 = 1 - arg * arg) as Hs.
  { pose proof (sin2_cos2 t2) as E. unfold Rsqr in E. rewrite Hc in E. lra. }
  set (k1 := l1 + l2 * cos t2). set (k2 := l2 * sin t2).
  assert (k1 * k1 + k2 * k2 = px * px + py * py) as Hk.
  { unfold k1, k2. rewrite Hc.
    replace ((l1 + l2 * arg) * (l1 + l2 * arg) + l2 * sin t2 * (l2 * sin t2))
      with (l1 * l1 + 2 * l1 * l2 * arg + l2 * l2 * (arg * arg + sin t2 * sin t2)) by ring.
    rewrite Hs. unfold arg. field. lra. }
  assert (forall t1, l1 * cos t1 + l2 * cos (t1 + t2) = k1 * cos t1 - k2 * sin t1) as Ex.
  { intros t1. rewrite cos_plus. unfold k1, k2. ring. }
  assert (forall t1, l1 * sin t1 + l2 * sin (t1 + t2) = k1 * sin t1 + k2 * cos t1) as Ey.
  { intros t1. rewrite sin_plus. unfold k1, k2. ring. }
  rewrite Ex, Ey.
  destruct (Req_dec (px * px + py * py) 0) as [Hz|Hnz].
  - assert (px = 0) as -> by nra. assert (py = 0) as -> by nra.
    assert (k1 = 0) as -> by nra. assert (k2 = 0) as -> by nra.
    f_equal; ring.
  - set (r := sqrt (px * px + py * py)).
    assert (0 < r) as Hr by (apply sqrt_lt_R0; nra).
    assert (r * r = px * px + py * py) as Hrr by (apply sqrt_sqrt; nra).
    assert (px <> 0 \/ py <> 0) as Hp.
    { destruct (Req_dec px 0); [right|left]; nra. }
    assert (k1 <> 0 \/ k2 <> 0) as Hq.
    { destruct (Req_dec k1 0); [right|left]; nra. }
    destruct (Exact.cos_sin_atan2 py px Hp) as [Cp Sp].
    destruct (Exact.cos_sin_atan2 k2 k1 Hq) as [Cq Sq].
    rewrite Hk in Cq, Sq. fold r in Cp, Sp, Cq, Sq.
    rewrite cos_minus, sin_minus, Cp, Sp, Cq, Sq.
    f_equal.
    + apply Exact.fk_x_algebra; lra.
    + apply Exact.fk_y_algebra; lra.
Qed.

(** C7, over real arithmetic.  For positive link lengths and a position in
    the reachable annulus the argument of [acos] lies in [-1, 1], so the
    elbow angle is the arccosine proper: its cosine is that argument and it
    lies in [0, PI]; a negative elbow angle is never returned. *)
Theorem elbow_angle_range (l1 l2 px py : R) :
  0 < l1 -> 0 < l2 ->
  reachable (Coord l1 l2) (Coord px py) = true ->
  let arg := (px * px + py * py - l1 * l1 - l2 * l2) / (2 * l1 * l2) in
  let theta2 := y (from_pos_to_angle (Coord px py) (Coord l1 l2)) in
  -1 <= arg <= 1 /\ cos theta2 = arg /\ 0 <= theta2 <= PI.
Proof.
  intros H1 H2 Hreach%Exact.reachable_exact arg theta2.
  pose proof (Exact.acos_argument_bounds l1 l2 px py H1 H2 Hreach) as Harg.
  fold arg in Harg. split; [exact Harg|].
  unfold theta2, from_pos_to_angle; simpl. fold arg.
  split; [now apply cos_acos|apply acos_bound].
Qed.

Lemma reachable_3_0_in_3_3 : reachable (Coord 3 3) (Coord 3 0) = true.
Proof.
  apply Exact.reachable_exact.
  replace (3 * 3 + 0 * 0) with (3 * 3) by ring.
  rewrite sqrt_square by lra.
  replace (3 - 3) with 0 by ring. rewrite Rabs_R0. lra.
Qed.

(** An instance of C6: links [(3, 3)], position [(3, 0)]. *)
Lemma forward_kinematics_roundtrip_witness :
  forward_kinematics (Coord 3 3) (from_pos_to_angle (Coord 3 0) (Coord 3 3))
  = Coord 3 0.
Proof.
  apply (forward_kinematics_roundtrip 3 3 3 0); [lra|lra|].
  exact reachable_3_0_in_3_3.
Defined.

(** An instance of C7: links [(3, 3)], position [(3, 0)]. *)
Lemma elbow_angle_range_witness :
  let theta2 := y (from_pos_to_angle (Coord 3 0) (Coord 3 3)) in
  -1 <= (3 * 3 + 0 * 0 - 3 * 3 - 3 * 3) / (2 * 3 * 3) <= 1
  /\ cos theta2 = (3 * 3 + 0 * 0 - 3 * 3 - 3 * 3) / (2 * 3 * 3)
  /\ 0 <= theta2 <= PI.
Proof.
  apply (elbow_angle_range 3 3 3 0); [lra|lra|].
  exact reachable_3_0_in_3_3.
Defined.

End ExactSolver.

(** *** The solver on binary64 *)

Section Binary64Solver.
Local Open Scope float_scope.

(** Once the elbow angle is a NaN, so is the position reconstructed from
    the angles. *)
Lemma forward_kinematics_nan (m : libm64) (L p : coord float) :
  is_nan (y (from_pos_to_angle (MT := binary64_libm m) p L)) = true ->
  let back :=
    forward_kinematics (MT := binary64_libm m) L
      (from_pos_to_angle (MT := binary64_libm m) p L) in
  is_nan (x back) = true /\ is_nan (y back) = true.
Proof.
  unfold forward_kinematics, from_pos_to_angle; simpl. intros H.
  split; apply B64.add_nan_r, B64.mul_nan_r;
    [apply cos64_nan|apply sin64_nan]; now apply B64.add_nan_r.
Qed.

(** C7 fails on binary64.  Equal links [(0.3, 0.3)] and the fully extended
    position [(0.6, 0)], whose norm is [L1 + L2] exactly (0.6 is twice 0.3,
    same mantissa, next exponent): the position is in the annulus and [main]
    accepts it as a start, but the quotient handed to [acos] rounds to
    1.0000000000000002, a domain error, and the elbow angle is a NaN
    whatever the platform's [<math.h>]. *)
Lemma elbow_angle_nan_at_full_reach :
  (0 <? 0.3) = true
  /\ Prim2SF 0.3 = S754_finite false 5404319552844595 (-54)
  /\ Prim2SF 0.6 = S754_finite false 5404319552844595 (-53)
  /\ norm 0.6 0 = 0.3 + 0.3
  /\ reachable (Coord 0.3 0.3) (Coord 0.6 0) = true
  /\ accepts (is_given_inputs_feasible (Coord 0.6 0) (Coord 0.5 0.2) (Coord 0.3 0.3))
             (World [] [])
  /\ (0.6 * 0.6 + 0 * 0 - 0.3 * 0.3 - 0.3 * 0.3) / (2 * 0.3 * 0.3) = 1.0000000000000002
  /\ forall m : libm64,
       is_nan (y (from_pos_to_angle (MT := binary64_libm m) (Coord 0.6 0) (Coord 0.3 0.3)))
       = true.
Proof.
  do 7 (split; [vm_compute; reflexivity|]).
  intros m. unfold from_pos_to_angle; simpl.
  apply acos64_domain. vm_compute. reflexivity.
Qed.

(** C6 fails on binary64, at the same input: the angles returned for the
    fully extended position are NaN, and so is the position reconstructed
    from them; it is not within 1e-9 (or any tolerance) of [(0.6, 0)]. *)
Lemma roundtrip_nan_at_full_reach :
  (0 <? 0.3) = true
  /\ reachable (Coord 0.3 0.3) (Coord 0.6 0) = true
  /\ forall m : libm64,
       let back :=
         forward_kinematics (MT := binary64_libm m) (Coord 0.3 0.3)
           (from_pos_to_angle (MT := binary64_libm m) (Coord 0.6 0) (Coord 0.3 0.3)) in
       is_nan (x back) = true /\ is_nan (y back) = true
       /\ (abs (x back - 0.6) <=? 1e-9) = false.
Proof.
  do 2 (split; [vm_compute; reflexivity|]).
  intros m back.
  assert (is_nan (y (from_pos_to_angle (MT := binary64_libm m)
                       (Coord 0.6 0) (Coord 0.3 0.3))) = true) as Hnan.
  { unfold from_pos_to_angle; simpl. apply acos64_domain. vm_compute. reflexivity. }
  destruct (forward_kinematics_nan m _ _ Hnan) as [Hx Hy].
  split; [exact Hx|]. split; [exact Hy|].
  now apply B64.abs_sub_nan_leb.
Qed.

End Binary64Solver.

(** *** The trajectory *)

(** C2, as the program has it.  For an accepted input and enough fuel for
    the 50 passes of the loop, [main] returns 0 having printed the prompts,
    the heading and one line per entry of a sequence of exactly 51 entries:
    entry 0 is the start with its angles, and entry [k], for [k = 1 .. 50],
    is the position [start + (goal - start) * k / 50] (product first, then
    quotient, each operation in the arithmetic of the program) with the
    angles of that position.  Over the reals that position is
    [start + (goal - start) * (k / 50)], and the last one is the goal. *)
Theorem trajectory_reported :
  (forall (T : Type) (AT : Arith T) (MT : Libm T) (LT : ArithLaws T)
          (fuel : nat) (x0 y0 x1 y1 l1 l2 : T) (rest : list T) (out : list (text T)),
      let start := Coord x0 y0 in
      let goal := Coord x1 y1 in
      let L := Coord l1 l2 in
      (51 <= fuel)%nat ->
      accepts (is_given_inputs_feasible start goal L) (World rest (out ++ prompts)) ->
      main fuel (World (x0 :: y0 :: x1 :: y1 :: l1 :: l2 :: rest) out)
      = Returned 0%Z (World rest (out ++ prompts ++ header ++ report start goal L))
      /\ List.length (trajectory start goal L) = 51%nat
      /\ nth_error (trajectory start goal L) 0 = Some (start, from_pos_to_angle start L)
      /\ forall k : nat, (1 <= k <= 50)%nat ->
           let p := Coord (x0 + (x1 - x0) * lit (Z.of_nat k) / lit 50)%dbl
                          (y0 + (y1 - y0) * lit (Z.of_nat k) / lit 50)%dbl in
           nth_error (trajectory start goal L) k = Some (p, from_pos_to_angle p L))
  /\ (forall (start goal : coord R) (k : Z),
        waypoint start goal (lit 50) (lit k)
        = Coord (x start + (x goal - x start) * (IZR k / 50))%R
                (y start + (y goal - y start) * (IZR k / 50))%R)
  /\ (forall start goal : coord R, waypoint start goal (lit 50) (lit 50) = goal).
Proof.
  split; [|split].
  - intros T AT MT LT fuel x0 y0 x1 y1 l1 l2 rest out start goal L Hfuel Hacc.
    split; [now apply main_reports|].
    split; [reflexivity|]. split; [reflexivity|].
    intros k Hk p. unfold trajectory.
    rewrite nth_error_map, nth_error_seq.
    destruct (Nat.ltb_spec k 51) as [_|?]; [|lia]. simpl.
    destruct k as [|k]; [lia|]. reflexivity.
  - intros [x0 y0] [x1 y1] k. unfold waypoint; simpl. f_equal; field.
  - intros [x0 y0] [x1 y1]. unfold waypoint; simpl. f_equal; field.
Qed.

Section ExactRuns.
Local Open Scope R_scope.

Lemma reachable_0_4_in_3_3 : reachable (Coord 3 3) (Coord 0 4) = true.
Proof.
  apply Exact.reachable_exact.
  replace (0 * 0 + 4 * 4) with (4 * 4) by ring.
  rewrite sqrt_square by lra.
  replace (3 - 3) with 0 by ring. rewrite Rabs_R0. lra.
Qed.

Lemma clearance_3_0_0_4 : clearance (Coord 3 0) (Coord 0 4) = 12 / 5.
Proof.
  change (Rabs (0 * (3 - 0) - (0 - 4) * 3)
          / sqrt ((0 - 4) * (0 - 4) + (- 3 + 0) * (- 3 + 0)) = 12 / 5).
  replace (0 * (3 - 0) - (0 - 4) * 3) with 12 by ring.
  replace ((0 - 4) * (0 - 4) + (- 3 + 0) * (- 3 + 0)) with (5 * 5) by ring.
  rewrite sqrt_square by lra. rewrite Rabs_pos_eq by lra. reflexivity.
Qed.

Lemma accepts_3_0_0_4 (w : world R) :
  accepts (is_given_inputs_feasible (Coord 3 0) (Coord 0 4) (Coord 3 3)) w.
Proof.
  apply accepts_iff.
  rewrite (reachable_in_range _ _ reachable_3_0_in_3_3).
  rewrite (reachable_in_range _ _ reachable_0_4_in_3_3).
  rewrite clearance_3_0_0_4. simpl.
  replace (3 - 3) with 0 by ring. rewrite Rabs_R0.
  split; [reflexivity|]. split.
  - apply Exact.Rltb_false. lra.
  - apply andb_false_iff. right. apply Exact.Reqb_false. lra.
Qed.

(** An instance of C2 over the reals: links [(3, 3)], from [(3, 0)] to
    [(0, 4)], with room for the 50 passes. *)
Lemma trajectory_reported_witness :
  main 51 (World [3; 0; 0; 4; 3; 3] [])
  = Returned 0%Z
      (World [] ([] ++ prompts ++ header ++ report (Coord 3 0) (Coord 0 4) (Coord 3 3)))
  /\ List.length (trajectory (Coord 3 0) (Coord 0 4) (Coord 3 3)) = 51%nat.
Proof.
  destruct (proj1 trajectory_reported R exact exact_libm exact_laws
              51%nat 3 0 0 4 3 3 [] [] (le_n 51) (accepts_3_0_0_4 _))
    as (Hmain & Hlen & _).
  split; [exact Hmain|exact Hlen].
Defined.

Lemma out_of_range_5_5_in_3_1 (goal : coord R) (w : world R) :
  signals OutOfRange (is_given_inputs_feasible (Coord 5 5) goal (Coord 3 1)) w.
Proof.
  apply signals_iff. apply orb_true_iff. left.
  unfold out_of_range. apply orb_true_iff. left.
  unfold norm; simpl. apply Exact.Rltb_true.
  replace (3 + 1) with (sqrt (4 * 4)) by (rewrite sqrt_square; lra).
  apply sqrt_lt_1_alt. lra.
Qed.

(** An instance of C8 over the reals: links [(3, 1)] and the start [(5, 5)],
    out of range. *)
Lemma failed_check_exits_witness :
  main 0 (World [5; 5; 0; 3; 3; 1] [])
  = Exited 0 (World [] ([] ++ prompts ++ [Lit (message OutOfRange); Lit endl]))
  /\ forall (v : R) d wd,
       ~ In (Fixed v d wd) (prompts ++ [Lit (message OutOfRange); Lit endl]).
Proof.
  apply (failed_check_exits 0 OutOfRange 5 5 0 3 3 1 [] []).
  apply out_of_range_5_5_in_3_1.
Defined.

End ExactRuns.

(** *** Degenerate lines *)

(** C9, as the program has it.  On binary64, when start and goal are the
    same finite point of the annulus, the divisor of the distance is [+0],
    the distance is [0/0], a NaN, every comparison with it is false, and the
    check accepts the input.  Over the reals the divisor vanishes only for
    equal endpoints. *)
Theorem equal_endpoints_accepted :
  (forall (p L : coord float) (w : world float),
      is_finite (x p) = true -> is_finite (y p) = true ->
      reachable L p = true ->
      clearance_divisor p p = zero
      /\ clearance p p = nan
      /\ (forall v : float, (clearance p p <? v)%dbl = false
                            /\ (clearance p p == v)%dbl = false)
      /\ accepts (is_given_inputs_feasible p p L) w)
  /\ (forall start goal : coord R, clearance_divisor start goal = 0%R <-> start = goal).
Proof.
  split.
  - intros [x0 y0] L w Hx Hy Hreach. simpl in Hx, Hy.
    assert (clearance_divisor (Coord x0 y0) (Coord x0 y0) = zero) as Hdiv.
    { unfold clearance_divisor; simpl.
      rewrite (B64.sub_diag y0 Hy), (B64.opp_add_diag x0 Hx). reflexivity. }
    assert (clearance (Coord x0 y0) (Coord x0 y0) = nan) as Hd.
    { unfold clearance. rewrite Hdiv. simpl.
      rewrite (B64.sub_diag y0 Hy), (B64.sub_diag x0 Hx).
      rewrite (B64.abs_zero_products y0 x0 Hy Hx). reflexivity. }
    split; [exact Hdiv|]. split; [exact Hd|].
    assert (forall v : float, (clearance (Coord x0 y0) (Coord x0 y0) <? v)%dbl = false
                              /\ (clearance (Coord x0 y0) (Coord x0 y0) == v)%dbl = false)
      as Hcmp.
    { intros v. rewrite Hd. split; [apply B64.nan_ltb|apply B64.nan_eqb]. }
    split; [exact Hcmp|].
    apply accepts_iff. rewrite (reachable_in_range _ _ Hreach). simpl.
    split; [reflexivity|]. split; [apply Hcmp|].
    apply andb_false_iff. right. apply Hcmp.
  - intros [x0 y0] [x1 y1]. unfold clearance_divisor; simpl. split.
    + intros H.
      pose proof (Rle_0_sqr (y0 - y1)) as Ha.
      pose proof (Rle_0_sqr (- x0 + x1)) as Hb. unfold Rsqr in Ha, Hb.
      apply sqrt_eq_0 in H; [|lra].
      destruct (Rplus_sqr_eq_0 (y0 - y1) (- x0 + x1) H) as [Ea Eb].
      f_equal; lra.
    + intros H. injection H as -> ->.
      replace ((y1 - y1) * (y1 - y1) + (- x1 + x1) * (- x1 + x1))%R with 0%R by ring.
      apply sqrt_0.
Qed.

Section Binary64Lines.
Local Open Scope float_scope.

(** An instance of C9: links [(1, 1)], start and goal both [(1, 1)]. *)
Lemma equal_endpoints_accepted_witness :
  clearance_divisor (Coord 1 1) (Coord 1 1) = zero
  /\ clearance (Coord 1 1) (Coord 1 1) = nan
  /\ accepts (is_given_inputs_feasible (Coord 1 1) (Coord 1 1) (Coord 1 1)) (World [] []).
Proof.
  destruct (proj1 equal_endpoints_accepted (Coord 1 1) (Coord 1 1) (World [] []))
    as (Hdiv & Hd & _ & Hacc); try (vm_compute; reflexivity).
  split; [exact Hdiv|]. split; [exact Hd|exact Hacc].
Defined.

(** C9 fails on binary64 in one direction: the divisor is also zero for
    distinct endpoints whose squared differences underflow.  Links [(1, 1)],
    from the origin to [(1e-200, 0)]: the endpoints differ, the divisor is
    0, the distance is a NaN, and the check accepts a line through the
    singular point. *)
Lemma zero_divisor_distinct_endpoints :
  (0 =? 1e-200) = false
  /\ clearance_divisor (Coord 0 0) (Coord 1e-200 0) = zero
  /\ clearance (Coord 0 0) (Coord 1e-200 0) = nan
  /\ reachable (Coord 1 1) (Coord 0 0) = true
  /\ reachable (Coord 1 1) (Coord 1e-200 0) = true
  /\ accepts (is_given_inputs_feasible (Coord 0 0) (Coord 1e-200 0) (Coord 1 1))
             (World [] []).
Proof. repeat split; vm_compute; reflexivity. Qed.

(** C2 fails on binary64: the last position is [start + (goal - start) * 50
    / 50] rounded three times, not the goal.  Links [(1, 1)], from
    [(0.2, 0.5)] to [(0.6, 0.5)]: the input is accepted, the last reported
    position has abscissa 0.6000000000000001, and already the fifth position
    differs from [start + (goal - start) * (5 / 50)].  Links [(1e17, 1e17)],
    from [(1e17, 1)] to [(1, 1)]: accepted, and the last position is
    [(0, 1)]. *)
Lemma last_waypoint_misses_goal :
  accepts (is_given_inputs_feasible (Coord 0.2 0.5) (Coord 0.6 0.5) (Coord 1 1))
          (World [] [])
  /\ (forall m : libm64,
        option_map fst
          (nth_error (trajectory (MT := binary64_libm m)
                        (Coord 0.2 0.5) (Coord 0.6 0.5) (Coord 1 1)) 50)
        = Some (Coord 0.6000000000000001 0.5))
  /\ (0.6000000000000001 =? 0.6) = false
  /\ x (waypoint (Coord 0.2 0.5) (Coord 0.6 0.5) (lit 50) (lit 5)) = 0.24
  /\ 0.2 + (0.6 - 0.2) * (5 / 50) = 0.24000000000000002
  /\ accepts (is_given_inputs_feasible (Coord 1e17 1) (Coord 1 1) (Coord 1e17 1e17))
             (World [] [])
  /\ waypoint (Coord 1e17 1) (Coord 1 1) (lit 50) (lit 50) = Coord 0 1.
Proof. repeat split; vm_compute; reflexivity. Qed.

(** C10 fails at the input it names.  Links [(3, 1)], from [(3, 0.1)] to
    [(4, 0.1)]: the goal has norm 4.00125 > 4 = L1 + L2, so it is outside
    the annulus, on binary64 and over the reals alike, and the check signals
    [OutOfRange], not [PathInfeasible]. *)
Lemma named_goal_out_of_range :
  norm 4 0.1 = 4.0012498047485119
  /\ (norm 4 0.1 >? 3 + 1)%dbl = true
  /\ reachable (Coord 3 1) (Coord 4 0.1) = false
  /\ signals OutOfRange
       (is_given_inputs_feasible (Coord 3 0.1) (Coord 4 0.1) (Coord 3 1))
       (World [] [])
  /\ (reachable (Coord 3 1) (Coord 4 (1 / 10)) = false)%R.
Proof.
  do 4 (split; [vm_compute; reflexivity|]).
  unfold reachable, norm; simpl. apply andb_false_iff. right.
  apply Exact.Rleb_false.
  replace (3 + 1)%R with (sqrt (4 * 4)) by (rewrite sqrt_square; lra).
  apply sqrt_lt_1_alt. lra.
Qed.

End Binary64Lines.

(** C10, with a goal inside the annulus.  The distance the check measures is
    to the whole line, not to the segment: for links [(3, 1)], start
    [(3, 0.1)] and goal [(3.5, 0.1)], both endpoints are in the annulus and
    the check signals [PathInfeasible], on binary64 and over the reals,
    although every point of the segment from start to goal has norm at least
    [|L1 - L2|] (in exact arithmetic; the ordinate [y0] may be the real 0.1
    or the double nearest to it). *)
Theorem clearance_is_to_the_line :
  (reachable (Coord 3 1) (Coord 3 0.1) = true
   /\ reachable (Coord 3 1) (Coord 3.5 0.1) = true
   /\ signals PathInfeasible
        (is_given_inputs_feasible (Coord 3 0.1) (Coord 3.5 0.1) (Coord 3 1))
        (World [] []))%float
  /\ (reachable (Coord 3 1) (Coord 3 (1 / 10)) = true
      /\ reachable (Coord 3 1) (Coord (7 / 2) (1 / 10)) = true
      /\ signals PathInfeasible
           (is_given_inputs_feasible (Coord 3 (1 / 10)) (Coord (7 / 2) (1 / 10)) (Coord 3 1))
           (World [] []))%R
  /\ (forall y0 t : R, 0 <= t <= 1 ->
        Rabs (3 - 1) <= norm (3 + t * (7 / 2 - 3)) (y0 + t * (y0 - y0)))%R.
Proof.
  assert (forall u v : R, 3 <= u <= 7 / 2 -> v * v <= 1 ->
            reachable (Coord 3 1) (Coord u v) = true)%R as Hreach.
  { intros u v Hu Hv. apply Exact.reachable_exact.
    rewrite Rabs_pos_eq by lra. split.
    - replace (3 - 1)%R with (sqrt (2 * 2)) by (rewrite sqrt_square; lra).
      apply sqrt_le_1_alt. nra.
    - replace (3 + 1)%R with (sqrt (4 * 4)) by (rewrite sqrt_square; lra).
      apply sqrt_le_1_alt. nra. }
  split; [|split].
  - repeat split; vm_compute; reflexivity.
  - split; [apply Hreach; lra|]. split; [apply Hreach; lra|].
    apply signals_iff.
    rewrite !reachable_in_range by (apply Hreach; lra).
    split; [reflexivity|]. apply Exact.Rltb_true.
    change (Rabs (1 / 10 * (3 - 7 / 2) - (1 / 10 - 1 / 10) * 3)
            / sqrt ((1 / 10 - 1 / 10) * (1 / 10 - 1 / 10) + (- 3 + 7 / 2) * (- 3 + 7 / 2))
            < Rabs (3 - 1))%R.
    replace ((1 / 10 - 1 / 10) * (1 / 10 - 1 / 10) + (- 3 + 7 / 2) * (- 3 + 7 / 2))%R
      with (1 / 2 * (1 / 2))%R by field.
    rewrite sqrt_square by lra.
    rewrite Rabs_left by lra. rewrite Rabs_pos_eq by lra. lra.
  - intros y0 t Ht. unfold norm; simpl.
    rewrite Rabs_pos_eq by lra.
    replace (3 - 1)%R with (sqrt (2 * 2)) by (rewrite sqrt_square; lra).
    apply sqrt_le_1_alt. nra.
Qed.

(** * Further properties of the program *)

(** ** Binary64: signs *)

Module B64Sign.

Lemma has_sign_SFnonneg (a : spec_float) : has_sign false a -> SFnonneg a = true.
Proof. destruct a; simpl; intros H; try subst; auto. Qed.

Lemma SFabs_nonneg (a : spec_float) : SFnonneg (SFabs a) = true.
Proof. now destruct a. Qed.

Lemma SF64mul_square_nonneg (a : spec_float) : SFnonneg (SF64mul a a) = true.
Proof.
  destruct a as [sa|sa| |sa ma ea]; simpl.
  - now destruct sa.
  - now destruct sa.
  - reflexivity.
  - replace (xorb sa sa) with false by now destruct sa.
    apply has_sign_SFnonneg, B64.binary_round_aux_sign. lia.
Qed.

Lemma SF64add_nonneg_or_nan (a b : spec_float) :
  SFnonneg a = true -> SFnonneg b = true -> SFnonneg (SF64add a b) = true.
Proof.
  destruct a as [[]|[]| |[] ma ea], b as [[]|[]| |[] mb eb]; simpl; try discriminate; auto.
  intros _ _. apply has_sign_SFnonneg, B64.binary_round_sign.
Qed.

Lemma SF64sqrt_nonneg_or_nan (a : spec_float) :
  SFnonneg a = true -> SFnonneg (SF64sqrt a) = true.
Proof.
  destruct a as [[]|[]| |[] ma ea]; simpl; try discriminate; auto.
  intros _. apply has_sign_SFnonneg.
  apply (B64.SF64sqrt_nonneg (S754_finite false ma ea)). reflexivity.
Qed.

Lemma div_eucl_nonneg (a b : Z) :
  (0 <= a)%Z -> (0 < b)%Z -> (0 <= fst (Z.div_eucl a b))%Z.
Proof.
  intros Ha Hb. change (fst (Z.div_eucl a b)) with (a / b)%Z.
  apply Z.div_pos; assumption.
Qed.

Lemma SF64div_nonneg_or_nan (a b : spec_float) :
  SFnonneg a = true -> SFnonneg b = true -> SFnonneg (SF64div a b) = true.
Proof.
  destruct a as [[]|[]| |[] ma ea], b as [[]|[]| |[] mb eb]; simpl; try discriminate; auto.
  intros _ _. unfold SFdiv_core_binary.
  set (m' := match _ with Z0 => _ | Zpos _ => _ | Zneg _ => _ end).
  assert (0 <= m')%Z as Hm.
  { unfold m'. destruct (_ - _ - _)%Z; try lia. apply Z.shiftl_nonneg. lia. }
  pose proof (div_eucl_nonneg m' (Z.pos mb) Hm ltac:(lia)) as Hq.
  destruct (Z.div_eucl m' (Z.pos mb)) as [q r]. simpl in Hq.
  apply has_sign_SFnonneg, B64.binary_round_aux_sign. exact Hq.
Qed.

(** Nothing without a sign bit is below [+0], or below a NaN. *)
Lemma SFltb_nonneg_zero (d z : spec_float) :
  SFnonneg d = true -> z = S754_zero false \/ z = S754_nan -> SFltb d z = false.
Proof.
  intros Hd [-> | ->]; destruct d as [[]|[]| |[] m e]; simpl in *;
    try discriminate; reflexivity.
Qed.

(** The magnitude of the difference of two equal values is [+0], or a NaN
    when they are infinite. *)
Lemma SFeqb_sub_abs (a b : spec_float) :
  SFeqb a b = true ->
  SFabs (SF64sub a b) = S754_zero false \/ SFabs (SF64sub a b) = S754_nan.
Proof.
  unfold SFeqb.
  destruct a as [sa|sa| |sa ma ea], b as [sb|sb| |sb mb eb]; simpl; try discriminate;
    try (destruct sa; discriminate); try (destruct sb; discriminate).
  - destruct sa, sb; auto.
  - destruct sa, sb; try discriminate; auto.
  - destruct sa, sb; try discriminate;
      (destruct (ea ?= eb)%Z eqn:E; try discriminate; apply Z.compare_eq in E; subst eb);
      intros H;
      assert (ma = mb) as ->
        by (apply Pos.compare_eq; change (Pos.compare_cont Eq ma mb = Eq);
            destruct (Pos.compare_cont Eq ma mb); simpl in H; congruence);
      left; simpl; rewrite ?Z.pos_sub_diag, ?Z.sub_diag; reflexivity.
Qed.

Local Open Scope float_scope.

(** The distance [d] of the check is a NaN or has its sign bit clear. *)
Lemma clearance_nonneg (s g : coord float) : SFnonneg (Prim2SF (clearance s g)) = true.
Proof.
  unfold clearance, clearance_divisor; simpl.
  rewrite div_spec, abs_spec, sqrt_spec, add_spec, !mul_spec.
  apply SF64div_nonneg_or_nan; [apply SFabs_nonneg|].
  apply SF64sqrt_nonneg_or_nan, SF64add_nonneg_or_nan; apply SF64mul_square_nonneg.
Qed.

Lemma equal_links_clear (s g L : coord float) :
  (x L =? y L) = true -> (clearance s g <? abs (x L - y L)) = false.
Proof.
  intros HL. rewrite eqb_spec in HL. rewrite ltb_spec, abs_spec, sub_spec.
  apply SFltb_nonneg_zero; [apply clearance_nonneg|].
  now apply SFeqb_sub_abs.
Qed.

End B64Sign.

(** ** Binary64: NaN operands, and two identities of rounded arithmetic *)

Module B64Nan.

Lemma SF64add_comm (a b : spec_float) : SF64add a b = SF64add b a.
Proof.
  destruct a as [[]|[]| |sa ma ea], b as [[]|[]| |sb mb eb]; simpl; try reflexivity.
  now rewrite Z.add_comm, (Z.min_comm eb ea).
Qed.

Lemma SF64mul_opp_opp (a : spec_float) : SF64mul (SFopp a) (SFopp a) = SF64mul a a.
Proof. destruct a as [[]|[]| |[] ma ea]; reflexivity. Qed.

Lemma SFltb_nan_r (a : spec_float) : SFltb a S754_nan = false.
Proof. now destruct a. Qed.

Lemma SFleb_nan_r (a : spec_float) : SFleb a S754_nan = false.
Proof. now destruct a. Qed.

Lemma SFeqb_nan_r (a : spec_float) : SFeqb a S754_nan = false.
Proof. now destruct a. Qed.

Lemma SF64mul_nan_r (a : spec_float) : SF64mul a S754_nan = S754_nan.
Proof. now destruct a. Qed.

Lemma SF64add_nan_r (a : spec_float) : SF64add a S754_nan = S754_nan.
Proof. now destruct a. Qed.

Lemma SF64sub_nan_r (a : spec_float) : SF64sub a S754_nan = S754_nan.
Proof. now destruct a. Qed.

Local Open Scope float_scope.

Lemma is_nan_Prim2SF (v : float) : is_nan v = true -> Prim2SF v = S754_nan.
Proof. rewrite B64.is_nan_spec. now destruct (Prim2SF v). Qed.

Lemma add_comm (a b : float) : a + b = b + a.
Proof. apply Prim2SF_inj. rewrite !add_spec. apply SF64add_comm. Qed.

Lemma mul_opp_opp (a : float) : (- a) * (- a) = a * a.
Proof. apply Prim2SF_inj. rewrite !mul_spec, opp_spec. apply SF64mul_opp_opp. Qed.

(** The norm of a position with a NaN coordinate is a NaN. *)
Lemma norm_nan (a b : float) :
  is_nan a || is_nan b = true -> Prim2SF (norm a b) = S754_nan.
Proof.
  intros H. unfold norm; simpl. rewrite sqrt_spec, add_spec, !mul_spec.
  apply orb_true_iff in H as [H|H]; apply is_nan_Prim2SF in H; rewrite H.
  - reflexivity.
  - rewrite SF64mul_nan_r, SF64add_nan_r. reflexivity.
Qed.

(** So is the distance [d] when a coordinate of either endpoint is. *)
Lemma clearance_nan_start (s g : coord float) :
  is_nan (x s) || is_nan (y s) = true -> Prim2SF (clearance s g) = S754_nan.
Proof.
  intros H. unfold clearance, clearance_divisor; simpl.
  rewrite div_spec, abs_spec, !sub_spec, !mul_spec, !sub_spec.
  apply orb_true_iff in H as [H|H]; apply is_nan_Prim2SF in H; rewrite H.
  - simpl. rewrite SF64mul_nan_r. reflexivity.
  - reflexivity.
Qed.

Lemma clearance_nan_goal (s g : coord float) :
  is_nan (x g) || is_nan (y g) = true -> Prim2SF (clearance s g) = S754_nan.
Proof.
  intros H. unfold clearance, clearance_divisor; simpl.
  rewrite div_spec, abs_spec, !sub_spec, !mul_spec, !sub_spec.
  apply orb_true_iff in H as [H|H]; apply is_nan_Prim2SF in H; rewrite H.
  - rewrite SF64sub_nan_r, SF64mul_nan_r. reflexivity.
  - rewrite SF64sub_nan_r. simpl. rewrite SF64sub_nan_r. reflexivity.
Qed.

(** A position with a NaN coordinate passes the range test, and is not in
    the annulus. *)
Lemma out_of_range_nan (L p : coord float) :
  is_nan (x p) || is_nan (y p) = true ->
  out_of_range L p = false /\ reachable L p = false.
Proof.
  intros H%norm_nan. unfold norm in H. unfold out_of_range, reachable, norm.
  simpl in *. rewrite !ltb_spec, !leb_spec, H, SFltb_nan_r, SFleb_nan_r.
  split; [reflexivity|]. apply andb_false_r.
Qed.

(** With a NaN link length both bounds of the annulus are NaN. *)
Lemma bounds_nan (L : coord float) :
  is_nan (x L) || is_nan (y L) = true ->
  Prim2SF (x L + y L) = S754_nan /\ Prim2SF (abs (x L - y L)) = S754_nan.
Proof.
  intros H. rewrite abs_spec, add_spec, sub_spec.
  apply orb_true_iff in H as [H|H]; apply is_nan_Prim2SF in H; rewrite H.
  - split; reflexivity.
  - rewrite SF64add_nan_r, SF64sub_nan_r. split; reflexivity.
Qed.

Lemma out_of_range_nan_links (L p : coord float) :
  is_nan (x L) || is_nan (y L) = true -> out_of_range L p = false.
Proof.
  intros [Hhi Hlo]%bounds_nan. unfold out_of_range. simpl in *.
  rewrite !ltb_spec, Hhi, Hlo, SFltb_nan_r. now destruct (Prim2SF (norm (x p) (y p))).
Qed.

End B64Nan.

(** ** Binary64: a step of zero length *)

Module B64Step.
Local Open Scope float_scope.

Lemma SF64add_zero_r (a : spec_float) :
  SFfin a = true -> SFeqb (SF64add a (S754_zero false)) a = true.
Proof.
  destruct a as [[]|sa| |sa ma ea]; simpl; try discriminate; intros _; try reflexivity.
  unfold SFeqb. now rewrite B64.SFcompare_refl.
Qed.

Lemma add_zero_eqb (v : float) : is_finite v = true -> (v + zero =? v) = true.
Proof.
  intros Hv%B64.is_finite_SFfin. rewrite eqb_spec, add_spec.
  now apply SF64add_zero_r.
Qed.

(** [0 * k / 50] is [+0] for the counters of the loop. *)
Lemma small_zero_step :
  forallb (fun k => PrimFloat.Leibniz.eqb (zero * (lit k : float) / lit 50) zero) small
  = true.
Proof. vm_compute. reflexivity. Qed.

Lemma zero_step (k : Z) : (0 <= k <= 50)%Z -> zero * (lit k : float) / lit 50 = zero.
Proof.
  intros Hk%B64.in_small. pose proof small_zero_step as H.
  rewrite forallb_forall in H. now apply FloatAxioms.Leibniz.eqb_spec, H.
Qed.

Lemma still_coordinate (v : float) (k : Z) :
  is_finite v = true -> (0 <= k <= 50)%Z -> (v + (v - v) * lit k / lit 50 =? v) = true.
Proof.
  intros Hv Hk. rewrite (B64.sub_diag v Hv), (zero_step k Hk).
  now apply add_zero_eqb.
Qed.

End B64Step.

(** ** Real arithmetic: segments, lines and angles *)

Module ExactPath.
Local Open Scope R_scope.

(** A bound on the norm from a bound on its square. *)
Lemma sqrt_le_bound (s m : R) : 0 <= m -> s <= m * m -> sqrt s <= m.
Proof.
  intros Hm Hs. rewrite <- (sqrt_square m Hm). now apply sqrt_le_1_alt.
Qed.

Lemma sqrt_ge_bound (s m : R) : 0 <= m -> m * m <= s -> m <= sqrt s.
Proof.
  intros Hm Hs. rewrite <- (sqrt_square m Hm). now apply sqrt_le_1_alt.
Qed.

(** The point of the segment at parameter [k / n]. *)
Lemma segment_point (u v k n : R) :
  n <> 0 -> u + (v - u) * k / n = (1 - k / n) * u + k / n * v.
Proof. intros Hn. field. exact Hn. Qed.

(** The disc is convex. *)
Lemma convex_norm (x0 y0 x1 y1 t m : R) :
  0 <= t <= 1 ->
  sqrt (x0 * x0 + y0 * y0) <= m -> sqrt (x1 * x1 + y1 * y1) <= m ->
  sqrt (((1 - t) * x0 + t * x1) * ((1 - t) * x0 + t * x1)
        + ((1 - t) * y0 + t * y1) * ((1 - t) * y0 + t * y1)) <= m.
Proof.
  intros Ht H0 H1.
  assert (0 <= x0 * x0 + y0 * y0) as P0 by nra.
  assert (0 <= x1 * x1 + y1 * y1) as P1 by nra.
  pose proof (sqrt_pos (x0 * x0 + y0 * y0)) as S0.
  pose proof (sqrt_pos (x1 * x1 + y1 * y1)) as S1.
  pose proof (sqrt_sqrt _ P0) as E0. pose proof (sqrt_sqrt _ P1) as E1.
  assert (0 <= m) as Hm by lra.
  assert (x0 * x0 + y0 * y0 <= m * m) as B0 by nra.
  assert (x1 * x1 + y1 * y1 <= m * m) as B1 by nra.
  apply sqrt_le_bound; [exact Hm|].
  replace (((1 - t) * x0 + t * x1) * ((1 - t) * x0 + t * x1)
           + ((1 - t) * y0 + t * y1) * ((1 - t) * y0 + t * y1))
    with ((1 - t) * (x0 * x0 + y0 * y0) + t * (x1 * x1 + y1 * y1)
          - t * (1 - t) * ((x0 - x1) * (x0 - x1) + (y0 - y1) * (y0 - y1))) by ring.
  assert (0 <= t * (1 - t) * ((x0 - x1) * (x0 - x1) + (y0 - y1) * (y0 - y1))) as Hc.
  { destruct Ht as [Ht0 Ht1].
    apply Rmult_le_pos; [apply Rmult_le_pos; lra|].
    pose proof (Rle_0_sqr (x0 - x1)). pose proof (Rle_0_sqr (y0 - y1)).
    unfold Rsqr in *. lra. }
  destruct Ht as [Ht0 Ht1].
  assert (0 <= (1 - t) * (m * m - (x0 * x0 + y0 * y0))) by (apply Rmult_le_pos; lra).
  assert (0 <= t * (m * m - (x1 * x1 + y1 * y1))) by (apply Rmult_le_pos; lra).
  lra.
Qed.

(** A point [(px, py)] of the line [a x + b y + c = 0] is at least
    [|c| / sqrt (a^2 + b^2)] away from the origin. *)
Lemma line_point_norm (a b c px py : R) :
  a <> 0 \/ b <> 0 -> a * px + b * py + c = 0 ->
  Rabs c / sqrt (a * a + b * b) <= sqrt (px * px + py * py).
Proof.
  intros Hab Hline.
  assert (0 < a * a + b * b) as Hpos by (destruct Hab; nra).
  assert (0 < sqrt (a * a + b * b)) as Hd by now apply sqrt_lt_R0.
  apply Rmult_le_reg_r with (sqrt (a * a + b * b)); [exact Hd|].
  replace (Rabs c / sqrt (a * a + b * b) * sqrt (a * a + b * b)) with (Rabs c)
    by (field; lra).
  rewrite <- sqrt_mult by nra.
  apply sqrt_ge_bound; [apply Rabs_pos|].
  replace (Rabs c * Rabs c) with (c * c) by (unfold Rabs; destruct (Rcase_abs c); ring).
  replace c with (- (a * px + b * py)) by lra.
  pose proof (Rle_0_sqr (a * py - b * px)) as Hsq. unfold Rsqr in Hsq.
  replace ((px * px + py * py) * (a * a + b * b))
    with (- (a * px + b * py) * - (a * px + b * py)
          + (a * py - b * px) * (a * py - b * px)) by ring.
  lra.
Qed.

(** The waypoints lie on the line the check measures. *)
Lemma waypoint_on_line (x0 y0 x1 y1 t : R) :
  (y0 - y1) * ((1 - t) * x0 + t * x1) + (- x0 + x1) * ((1 - t) * y0 + t * y1)
  + (y0 * (x0 - x1) - (y0 - y1) * x0) = 0.
Proof. ring. Qed.

(** [atan2] is an angle of (-PI, PI], and of [0, PI] in the upper half
    plane. *)
Lemma atan2_bound (v u : R) : - PI < atan2 v u <= PI.
Proof.
  pose proof PI_RGT_0 as Hpi. unfold atan2.
  destruct (Rlt_dec 0 u) as [Hu|Hu].
  - pose proof (atan_bound (v / u)). lra.
  - destruct (Rlt_dec u 0) as [Hu'|Hu'].
    + pose proof (atan_bound (v / u)) as Hb.
      destruct (Rle_dec 0 v) as [Hv|Hv].
      * assert (v / u <= 0) as Hq.
        { pose proof (Rinv_lt_0_compat u Hu'). unfold Rdiv. nra. }
        destruct Hq as [Hq|Hq].
        -- apply atan_increasing in Hq. rewrite atan_0 in Hq. lra.
        -- rewrite Hq, atan_0. lra.
      * assert (0 < v / u) as Hq.
        { pose proof (Rinv_lt_0_compat u Hu'). unfold Rdiv. nra. }
        apply atan_increasing in Hq. rewrite atan_0 in Hq. lra.
    + destruct (Rlt_dec 0 v); [lra|]. destruct (Rlt_dec v 0); lra.
Qed.

Lemma atan2_upper_half (v u : R) : 0 <= v -> 0 <= atan2 v u.
Proof.
  intros Hv. pose proof PI_RGT_0 as Hpi. unfold atan2.
  destruct (Rlt_dec 0 u) as [Hu|Hu].
  - assert (0 <= v / u) as Hq.
    { pose proof (Rinv_0_lt_compat u Hu). unfold Rdiv. nra. }
    destruct Hq as [Hq|Hq].
    + apply atan_increasing in Hq. rewrite atan_0 in Hq. lra.
    + rewrite <- Hq, atan_0. lra.
  - destruct (Rlt_dec u 0) as [Hu'|Hu'].
    + pose proof (atan_bound (v / u)) as Hb.
      destruct (Rle_dec 0 v); lra.
    + destruct (Rlt_dec 0 v); [lra|]. destruct (Rlt_dec v 0); lra.
Qed.

Lemma atan2_0_pos (u : R) : 0 < u -> atan2 0 u = 0.
Proof.
  intros Hu. unfold atan2. destruct (Rlt_dec 0 u); [|lra].
  unfold Rdiv. now rewrite Rmult_0_l, atan_0.
Qed.

Lemma clearance_swap (s g : coord R) : clearance s g = clearance g s.
Proof.
  unfold clearance, clearance_divisor; simpl. f_equal.
  - rewrite <- Rabs_Ropp. f_equal. ring.
  - f_equal. ring.
Qed.

End ExactPath.

Module ExactCheck.
Local Open Scope R_scope.

Lemma in_range_exact (l1 l2 px py : R) :
  out_of_range (Coord l1 l2) (Coord px py) = false
  <-> Rabs (l1 - l2) <= sqrt (px * px + py * py) <= l1 + l2.
Proof.
  unfold out_of_range, norm; simpl.
  rewrite orb_false_iff, !Exact.Rltb_false. tauto.
Qed.

(** What acceptance says about a path between distinct endpoints: each
    point of the segment is in the annulus, and off the origin when the
    links are equal. *)
Lemma accepted_segment (x0 y0 x1 y1 l1 l2 t : R) (w : world R) :
  x0 <> x1 \/ y0 <> y1 ->
  accepts (is_given_inputs_feasible (Coord x0 y0) (Coord x1 y1) (Coord l1 l2)) w ->
  0 <= t <= 1 ->
  let px := (1 - t) * x0 + t * x1 in
  let py := (1 - t) * y0 + t * y1 in
  Rabs (l1 - l2) <= sqrt (px * px + py * py) <= l1 + l2
  /\ (l1 = l2 -> 0 < sqrt (px * px + py * py)).
Proof.
  intros Hne (Hr & Hd & Hs)%accepts_iff Ht px py.
  apply orb_false_iff in Hr as [H0 H1].
  apply in_range_exact in H0, H1.
  assert (y0 - y1 <> 0 \/ - x0 + x1 <> 0) as Hab by (destruct Hne; [right|left]; lra).
  pose proof (ExactPath.line_point_norm _ _ _ px py Hab
                (ExactPath.waypoint_on_line x0 y0 x1 y1 t)) as Hline.
  change (Rltb (clearance (Coord x0 y0) (Coord x1 y1)) (Rabs (l1 - l2)) = false) in Hd.
  apply Exact.Rltb_false in Hd.
  change (clearance (Coord x0 y0) (Coord x1 y1))
    with (Rabs (y0 * (x0 - x1) - (y0 - y1) * x0)
          / sqrt ((y0 - y1) * (y0 - y1) + (- x0 + x1) * (- x0 + x1))) in Hd, Hs.
  split; [split|].
  - lra.
  - apply ExactPath.convex_norm; tauto.
  - intros ->.
    change (Reqb l2 l2 && Reqb (Rabs (y0 * (x0 - x1) - (y0 - y1) * x0)
          / sqrt ((y0 - y1) * (y0 - y1) + (- x0 + x1) * (- x0 + x1))) 0 = false) in Hs.
    apply andb_false_iff in Hs as [Hs|Hs]; apply Exact.Reqb_false in Hs; [tauto|].
    replace (l2 - l2) with 0 in Hd by ring. rewrite Rabs_R0 in Hd. lra.
Qed.

End ExactCheck.

Module ExactAngles.
Local Open Scope R_scope.

Lemma norm_square (px py n : R) :
  sqrt (px * px + py * py) = n -> px * px + py * py = n * n.
Proof.
  intros <-. rewrite sqrt_sqrt; [reflexivity|nra].
Qed.

Lemma acos_m1 : acos (-1) = PI.
Proof. replace (-1) with (Ropp 1) by lra. rewrite acos_opp, acos_1. ring. Qed.

Lemma atan2_0_neg (u : R) : u < 0 -> atan2 0 u = PI.
Proof.
  intros Hu. unfold atan2. destruct (Rlt_dec 0 u); [lra|].
  destruct (Rlt_dec u 0); [|lra]. destruct (Rle_dec 0 0); [|lra].
  unfold Rdiv. rewrite Rmult_0_l, atan_0. ring.
Qed.

End ExactAngles.

(** ** Strings *)

Module StringFacts.

Lemma append_nil_r (s : string) : (s ++ "")%string = s.
Proof. induction s as [|c s IH]; simpl; [reflexivity|now rewrite IH]. Qed.





End StringFacts.

(** ** The verdicts of the check *)

Section Verdicts.
Context {T : Type} {AT : Arith T}.


End Verdicts.

(** ** The feasibility check on binary64 *)

Section Binary64Check.
Local Open Scope float_scope.

(** With links of equal length [is_given_inputs_feasible] never reports
    that the straight line is impossible: [abs (L1 - L2)] is then [+0] (a
    NaN for infinite lengths) and the distance [d], a quotient of a
    magnitude by a square root, is never below it.  Whatever the endpoints,
    the check signals [OutOfRange], signals [SingularPath], or accepts. *)
Theorem equal_links_never_path_infeasible
    (start goal L : coord float) (w : world float) :
  (x L == y L)%dbl = true ->
  signals OutOfRange (is_given_inputs_feasible start goal L) w
  \/ signals SingularPath (is_given_inputs_feasible start goal L) w
  \/ accepts (is_given_inputs_feasible start goal L) w.
Proof.
  intros HL. pose proof (B64Sign.equal_links_clear start goal L HL) as Hd.
  rewrite !signals_iff, accepts_iff. simpl. simpl in Hd. rewrite Hd.
  destruct (out_of_range L start || out_of_range L goal); [now left|right].
  destruct ((x L =? y L) && (clearance start goal =? 0)) eqn:E.
  - left. simpl in E. simpl. auto.
  - right. auto.
Qed.

(** Links [(2, 2)], from [(2, 0)] to [(0, 2)]: the chord passes at distance
    [sqrt 2] from the origin. *)
Lemma equal_links_never_path_infeasible_witness :
  signals OutOfRange
    (is_given_inputs_feasible (Coord 2 0) (Coord 0 2) (Coord 2 2)) (World [] [])
  \/ signals SingularPath
       (is_given_inputs_feasible (Coord 2 0) (Coord 0 2) (Coord 2 2)) (World [] [])
  \/ accepts (is_given_inputs_feasible (Coord 2 0) (Coord 0 2) (Coord 2 2)) (World [] []).
Proof.
  apply (equal_links_never_path_infeasible (Coord 2 0) (Coord 0 2) (Coord 2 2) (World [] [])).
  vm_compute. reflexivity.
Defined.

(** A NaN coordinate is never the reason for a rejection.  When a
    coordinate of the start or of the goal is a NaN, the distance [d] is a
    NaN and neither [PathInfeasible] nor [SingularPath] is signalled; the
    endpoint with the NaN passes the range test although it is not in the
    annulus; so the input is accepted unless the other endpoint is out of
    range. *)
Theorem nan_endpoint_not_rejected (start goal L : coord float) (w : world float) :
  is_nan (x start) || is_nan (y start) || (is_nan (x goal) || is_nan (y goal)) = true ->
  (accepts (is_given_inputs_feasible start goal L) w
   \/ signals OutOfRange (is_given_inputs_feasible start goal L) w)
  /\ (is_nan (x start) || is_nan (y start) = true ->
      out_of_range L start = false /\ reachable L start = false)
  /\ (is_nan (x goal) || is_nan (y goal) = true ->
      out_of_range L goal = false /\ reachable L goal = false).
Proof.
  intros H. split; [|split; apply B64Nan.out_of_range_nan].
  assert (Prim2SF (clearance start goal) = S754_nan) as Hd.
  { apply orb_true_iff in H as [H|H];
      [now apply B64Nan.clearance_nan_start|now apply B64Nan.clearance_nan_goal]. }
  assert ((clearance start goal <? fabs (x L - y L))%dbl = false) as Hlt
    by (change ((clearance start goal <? abs (x L - y L)) = false);
        rewrite ltb_spec, Hd; reflexivity).
  assert ((clearance start goal == lit 0)%dbl = false) as Heq
    by (change ((clearance start goal =? lit 0) = false);
        rewrite eqb_spec, Hd; reflexivity).
  rewrite accepts_iff, signals_iff, Hlt, Heq, andb_false_r.
  destruct (out_of_range L start || out_of_range L goal); [now right|now left].
Qed.

(** Links [(1, 1)], a start whose abscissa is a NaN, the goal [(1, 0)]:
    accepted. *)
Lemma nan_endpoint_not_rejected_witness :
  accepts (is_given_inputs_feasible (Coord nan 0) (Coord 1 0) (Coord 1 1)) (World [] [])
  /\ reachable (Coord 1 1) (Coord nan 0) = false.
Proof.
  destruct (nan_endpoint_not_rejected (Coord nan 0) (Coord 1 0) (Coord 1 1) (World [] []))
    as (_ & Hs & _).
  - vm_compute. reflexivity.
  - split; [vm_compute; reflexivity|]. apply Hs. vm_compute. reflexivity.
Defined.

(** A NaN link length disarms the check: both bounds of the annulus are
    NaN, every comparison of the three tests is false, and every pair of
    endpoints is accepted. *)
Theorem nan_link_accepts (start goal L : coord float) (w : world float) :
  is_nan (x L) || is_nan (y L) = true ->
  accepts (is_given_inputs_feasible start goal L) w.
Proof.
  intros H. destruct (B64Nan.bounds_nan L H) as [_ Hlo].
  apply accepts_iff. rewrite !(B64Nan.out_of_range_nan_links L _ H).
  split; [reflexivity|]. split.
  - change ((clearance start goal <? abs (x L - y L)) = false).
    rewrite ltb_spec, Hlo. apply B64Nan.SFltb_nan_r.
  - apply andb_false_iff. left. change ((x L =? y L) = false). rewrite eqb_spec.
    apply orb_true_iff in H as [H|H]; apply B64Nan.is_nan_Prim2SF in H; rewrite H.
    + reflexivity.
    + apply B64Nan.SFeqb_nan_r.
Qed.

(** A NaN second link, and endpoints a thousand units from the origin. *)
Lemma nan_link_accepts_witness :
  accepts (is_given_inputs_feasible (Coord 1000 0) (Coord 0 1000) (Coord 1 nan))
          (World [] []).
Proof.
  apply (nan_link_accepts (Coord 1000 0) (Coord 0 1000) (Coord 1 nan) (World [] [])).
  vm_compute. reflexivity.
Defined.

End Binary64Check.

(** ** Norm, elbow angle and waypoints on binary64 *)

Section Binary64Geometry.
Local Open Scope float_scope.

(** [norm] on binary64, bit for bit: it does not change when its arguments
    are exchanged or when the sign of one is flipped; and for finite
    arguments it is never a NaN and never negative (it may overflow to
    [+infinity]). *)
Theorem norm_symmetries (a b : float) :
  norm a b = norm b a
  /\ norm (- a) b = norm a b
  /\ norm a (- b) = norm a b
  /\ (is_finite a = true -> is_finite b = true ->
      is_nan (norm a b) = false /\ (0 <=? norm a b) = true).
Proof.
  unfold norm; simpl. split; [|split; [|split]].
  - now rewrite B64Nan.add_comm.
  - now rewrite B64Nan.mul_opp_opp.
  - now rewrite B64Nan.mul_opp_opp.
  - intros Ha Hb. pose proof (B64.norm_has_sign a b Ha Hb) as Hs.
    unfold norm in Hs; simpl in Hs.
    rewrite B64.is_nan_spec, leb_spec. change (Prim2SF 0) with (S754_zero false).
    destruct (Prim2SF (PrimFloat.sqrt (a * a + b * b))) as [s|s| |s m e];
      simpl in Hs; try tauto; subst s; split; reflexivity.
Qed.

(** The elbow angle that [from_pos_to_angle] returns depends on the position
    only through [x*x + y*y]: on binary64, with any [<math.h>], it is the
    same, bit for bit, for the mirror images of a position in either axis
    and in the diagonal. *)
Theorem elbow_angle_mirror (MT : Libm float) (px py : float) (L : coord float) :
  y (from_pos_to_angle (Coord (- px) py) L) = y (from_pos_to_angle (Coord px py) L)
  /\ y (from_pos_to_angle (Coord px (- py)) L) = y (from_pos_to_angle (Coord px py) L)
  /\ y (from_pos_to_angle (Coord py px) L) = y (from_pos_to_angle (Coord px py) L).
Proof.
  unfold from_pos_to_angle; simpl. split; [|split].
  - now rewrite B64Nan.mul_opp_opp.
  - now rewrite B64Nan.mul_opp_opp.
  - now rewrite (B64Nan.add_comm (py * py)).
Qed.

(** A coordinate that start and goal share is reported unchanged along the
    whole trajectory: when [pos_init.x] is finite and [pos_des.x] is the
    same double, the abscissa of every waypoint of [main] compares equal to
    it (the step [(x1 - x0) * (i + 1.0) / N] is [+0]); likewise for the
    ordinate.  No rounding error accumulates on a horizontal or vertical
    path. *)
Theorem equal_coordinate_kept (start goal : coord float) (k : nat) :
  (k <= 50)%nat ->
  (is_finite (x start) = true -> x goal = x start ->
   (x (waypoint start goal (lit 50) (lit (Z.of_nat k))) == x start)%dbl = true)
  /\ (is_finite (y start) = true -> y goal = y start ->
      (y (waypoint start goal (lit 50) (lit (Z.of_nat k))) == y start)%dbl = true).
Proof.
  intros Hk. unfold waypoint; simpl. split; intros Hf ->;
    apply (B64Step.still_coordinate _ (Z.of_nat k) Hf); lia.
Qed.

(** From [(0.2, 0.5)] to [(0.6, 0.5)], waypoint 7: the ordinate is 0.5. *)
Lemma equal_coordinate_kept_witness :
  (y (waypoint (Coord 0.2 0.5) (Coord 0.6 0.5) (lit 50) (lit 7)) == 0.5)%dbl = true.
Proof.
  apply (proj2 (equal_coordinate_kept (Coord 0.2 0.5) (Coord 0.6 0.5) 7 ltac:(lia)));
    reflexivity.
Defined.

End Binary64Geometry.

(** ** The accepted trajectory over the reals *)

Section ExactTrajectory.
Local Open Scope R_scope.

(** What the check is for.  Over real arithmetic, when distinct endpoints
    are accepted, every position [main] reports (the start and the 50
    waypoints) lies in the reachable annulus; with links of equal length
    none of them is the origin, the singular point; and for positive link
    lengths the argument [from_pos_to_angle] hands to [acos] at each of them
    lies in [-1, 1]. *)
Theorem accepted_path_stays_reachable
    (start goal L : coord R) (w : world R) (k : nat) :
  x start <> x goal \/ y start <> y goal ->
  accepts (is_given_inputs_feasible start goal L) w ->
  (k <= 50)%nat ->
  let p := fst (entry_at start goal L k) in
  reachable L p = true
  /\ (x L = y L -> 0 < norm (x p) (y p))
  /\ (0 < x L -> 0 < y L ->
      -1 <= (x p * x p + y p * y p - x L * x L - y L * y L) / (2 * x L * y L) <= 1).
Proof.
  destruct start as [x0 y0], goal as [x1 y1], L as [l1 l2]. simpl x; simpl y.
  intros Hne Hacc Hk p.
  assert (exists t, 0 <= t <= 1
                    /\ x p = (1 - t) * x0 + t * x1 /\ y p = (1 - t) * y0 + t * y1)
    as (t & Ht & Hx & Hy).
  { unfold p. destruct k as [|k].
    - exists 0. simpl. split; [lra|split; ring].
    - exists (IZR (Z.of_nat (S k)) / 50).
      assert (0 <= IZR (Z.of_nat (S k)) <= 50) as Hb
        by (split; apply IZR_le; lia).
      split; [lra|].
      unfold entry_at, waypoint, fst. simpl x; simpl y.
      change (lit 50) with 50. change (lit (Z.of_nat (S k))) with (IZR (Z.of_nat (S k))).
      split; apply ExactPath.segment_point; lra. }
  destruct (ExactCheck.accepted_segment x0 y0 x1 y1 l1 l2 t w Hne Hacc Ht) as [Hann Hsing].
  cbv zeta in Hann, Hsing. rewrite <- Hx, <- Hy in Hann, Hsing.
  split; [|split].
  - destruct p as [px py]. now apply Exact.reachable_exact.
  - exact Hsing.
  - intros H1 H2. now apply Exact.acos_argument_bounds.
Qed.

(** Links [(3, 3)], from [(3, 0)] to [(0, 4)]: the midpoint, waypoint 25. *)
Lemma accepted_path_stays_reachable_witness :
  reachable (Coord 3 3) (fst (entry_at (Coord 3 0) (Coord 0 4) (Coord 3 3) 25)) = true.
Proof.
  apply (accepted_path_stays_reachable
           (Coord 3 0) (Coord 0 4) (Coord 3 3) (World [] []) 25).
  - left. simpl. lra.
  - apply accepts_3_0_0_4.
  - lia.
Defined.

(** Over the reals the outcome of the check is the same in both
    directions. *)
Lemma check_swap (start goal L : coord R) (w : world R) :
  is_given_inputs_feasible start goal L w = is_given_inputs_feasible goal start L w.
Proof.
  rewrite !is_given_inputs_feasible_cases.
  rewrite (ExactPath.clearance_swap start goal).
  now rewrite (orb_comm (out_of_range L start)).
Qed.

Lemma accepted_forwards :
  accepts (is_given_inputs_feasible (Coord 0.1 0.3) (Coord (-0.03) (-0.09)) (Coord 1 1))%float
          (World [] []).
Proof. vm_compute. reflexivity. Qed.

Lemma singular_backwards :
  signals SingularPath
    (is_given_inputs_feasible (Coord (-0.03) (-0.09)) (Coord 0.1 0.3) (Coord 1 1))%float
    (World [] []).
Proof. vm_compute. reflexivity. Qed.

(** The verdict and the direction of travel.  Over real arithmetic
    [is_given_inputs_feasible] gives the same outcome when start and goal
    are exchanged.  On binary64 it need not: with links [(1, 1)] the path
    from [(0.1, 0.3)] to [(-0.03, -0.09)] is accepted, and the same path
    travelled backwards is rejected with [SingularPath] ([c], and with it
    [d], rounds to zero in one direction only). *)
Theorem verdict_and_direction :
  (forall (start goal L : coord R) (w : world R),
     is_given_inputs_feasible start goal L w = is_given_inputs_feasible goal start L w)
  /\ (accepts
        (is_given_inputs_feasible (Coord 0.1 0.3) (Coord (-0.03) (-0.09)) (Coord 1 1))%float
        (World [] [])
      /\ signals SingularPath
           (is_given_inputs_feasible (Coord (-0.03) (-0.09)) (Coord 0.1 0.3) (Coord 1 1))%float
           (World [] [])).
Proof.
  split; [exact check_swap|]. split; [exact accepted_forwards|exact singular_backwards].
Qed.

(** The range test and the link lengths.  Over real arithmetic a position
    can pass the range test only when neither link length is negative, so
    the check needs no test of its own for that.  On binary64 the sum and
    the difference are rounded first: links [(1, -1e-30)] let the position
    [(1, 0)] pass, and are accepted. *)
Theorem range_test_validates_links :
  (forall L p : coord R, out_of_range L p = false -> 0 <= x L /\ 0 <= y L)
  /\ (out_of_range (Coord 1 (-1e-30)) (Coord 1 0) = false
      /\ accepts (is_given_inputs_feasible (Coord 1 0) (Coord 1 0) (Coord 1 (-1e-30)))
                 (World [] []))%float.
Proof.
  split.
  - intros [l1 l2] [px py] [Hlo Hhi]%ExactCheck.in_range_exact. simpl.
    pose proof (sqrt_pos (px * px + py * py)).
    unfold Rabs in Hlo. destruct (Rcase_abs (l1 - l2)); lra.
  - split; vm_compute; reflexivity.
Qed.

End ExactTrajectory.

(** ** The joint angles over the reals *)

Section ExactPostures.
Local Open Scope R_scope.

(** The two postures at the rim of the annulus, over real arithmetic and
    for positive link lengths.  At full reach, [norm p = L1 + L2], the arm
    is straight: [from_pos_to_angle] returns [theta2 = 0] and
    [theta1 = atan2 (y, x)].  At the inner rim the arm is folded,
    [theta2 = PI], and [theta1] is [atan2 (y, x)] when the first link is the
    longer one, and [atan2 (y, x) - PI] when it is the shorter one. *)
Theorem boundary_postures (p L : coord R) :
  0 < x L -> 0 < y L ->
  (norm (x p) (y p) = x L + y L ->
   from_pos_to_angle p L = Coord (atan2 (y p) (x p)) 0)
  /\ (y L < x L -> norm (x p) (y p) = x L - y L ->
      from_pos_to_angle p L = Coord (atan2 (y p) (x p)) PI)
  /\ (x L < y L -> norm (x p) (y p) = y L - x L ->
      from_pos_to_angle p L = Coord (atan2 (y p) (x p) - PI) PI).
Proof.
  destruct p as [px py], L as [l1 l2]. unfold from_pos_to_angle, norm. simpl.
  intros H1 H2. split; [|split].
  - intros Hn%ExactAngles.norm_square.
    replace ((px * px + py * py - l1 * l1 - l2 * l2) / (2 * l1 * l2)) with 1
      by (rewrite Hn; field; lra).
    rewrite acos_1, sin_0, cos_0, Rmult_0_r, ExactPath.atan2_0_pos by lra.
    f_equal. ring.
  - intros Hlt Hn%ExactAngles.norm_square.
    replace ((px * px + py * py - l1 * l1 - l2 * l2) / (2 * l1 * l2)) with (-1)
      by (rewrite Hn; field; lra).
    rewrite ExactAngles.acos_m1, sin_PI, cos_PI, Rmult_0_r, ExactPath.atan2_0_pos by lra.
    f_equal. ring.
  - intros Hlt Hn%ExactAngles.norm_square.
    replace ((px * px + py * py - l1 * l1 - l2 * l2) / (2 * l1 * l2)) with (-1)
      by (rewrite Hn; field; lra).
    rewrite ExactAngles.acos_m1, sin_PI, cos_PI, Rmult_0_r, ExactAngles.atan2_0_neg by lra.
    reflexivity.
Qed.

Lemma norm_6_0 : norm 6 0 = 3 + 3.
Proof.
  unfold norm. change (sqrt (6 * 6 + 0 * 0) = 3 + 3).
  replace (6 * 6 + 0 * 0) with (6 * 6) by ring.
  rewrite sqrt_square; lra.
Qed.

(** Links [(3, 3)] and the position [(6, 0)], at full reach. *)
Lemma boundary_postures_witness :
  from_pos_to_angle (Coord 6 0) (Coord 3 3) = Coord (atan2 0 6) 0.
Proof.
  apply (proj1 (boundary_postures (Coord 6 0) (Coord 3 3) ltac:(simpl; lra) ltac:(simpl; lra))).
  exact norm_6_0.
Defined.

(** The shoulder angle is not brought back to one turn.  Over real
    arithmetic, for positive link lengths and a position of the annulus
    (where [acos] has a value), [theta1] is the difference of an angle of
    (-PI, PI] and an angle of [0, PI]: it lies in (-2 PI, PI]. *)
Theorem shoulder_angle_range (p L : coord R) :
  0 < x L -> 0 < y L -> reachable L p = true ->
  - (2 * PI) < x (from_pos_to_angle p L) <= PI.
Proof.
  destruct p as [px py], L as [l1 l2]. unfold from_pos_to_angle. simpl.
  intros H1 H2 _.
  set (theta2 := acos _).
  pose proof (acos_bound ((px * px + py * py - l1 * l1 - l2 * l2) / (2 * l1 * l2))) as Hb.
  fold theta2 in Hb.
  assert (0 <= l2 * sin theta2) as Hs.
  { apply Rmult_le_pos; [lra|]. apply sin_ge_0; lra. }
  pose proof (ExactPath.atan2_bound py px).
  pose proof (ExactPath.atan2_bound (l2 * sin theta2) (l1 + l2 * cos theta2)).
  pose proof (ExactPath.atan2_upper_half _ (l1 + l2 * cos theta2) Hs).
  lra.
Qed.

(** Links [(3, 3)] and the position [(3, 0)]. *)
Lemma shoulder_angle_range_witness :
  - (2 * PI) < x (from_pos_to_angle (Coord 3 0) (Coord 3 3)) <= PI.
Proof.
  apply (shoulder_angle_range (Coord 3 0) (Coord 3 3)).
  - simpl. lra.
  - simpl. lra.
  - exact reachable_3_0_in_3_3.
Defined.

End ExactPostures.

(** ** The heading cells and the run as a whole *)


Section Outcome.
Context {T : Type} {AT : Arith T} {MT : Libm T} {LT : ArithLaws T}.


End Outcome.

Section ExactOutcome.
Local Open Scope R_scope.


End ExactOutcome.
